(** * manage_structure.py: the structure.md reconciliation engine

    A shallow embedding of [scan_project_files_for_verify],
    [extract_documented_paths] and the verify branch of the driver, with the
    parts of the Python runtime they call ([str], [re], [pathlib], [os.walk]).

    Conventions.
    - A Python [str] is the list of its Unicode code points ([list N]).
    - A Python [set] of strings is a [gset (list N)].
    - [path_stack] is a Python list used as a stack ([append], [pop],
      [path_stack[-1]]); here the head of the list is [path_stack[-1]].
    - [pathlib.Path] is [PurePosixPath]; [suffix] follows CPython up to 3.13. *)

From stdpp Require Import gmap list sorting strings.

Abbreviation pystr := (list N).

(** String literals: a literal of this file is UTF-8, [py] decodes it to code
    points. *)
Fixpoint utf8_decode (bytes : list N) : pystr :=
  match bytes with
  | [] => []
  | b :: r =>
      if (b <? 128)%N then b :: utf8_decode r
      else if (b <? 224)%N then
        match r with
        | b2 :: r' => ((b mod 32) * 64 + b2 mod 64)%N :: utf8_decode r'
        | _ => []
        end
      else if (b <? 240)%N then
        match r with
        | b2 :: b3 :: r' =>
            ((b mod 16) * 4096 + (b2 mod 64) * 64 + b3 mod 64)%N
            :: utf8_decode r'
        | _ => []
        end
      else
        match r with
        | b2 :: b3 :: b4 :: r' =>
            ((b mod 8) * 262144 + (b2 mod 64) * 4096 + (b3 mod 64) * 64
             + b4 mod 64)%N :: utf8_decode r'
        | _ => []
        end
  end.

Definition py (s : string) : pystr :=
  utf8_decode (map Ascii.N_of_ascii (String.list_ascii_of_string s)).
Arguments py s%_string.

(** A text given by its lines, each closed by a newline. *)
Definition py_lines (lines : list string) : pystr :=
  concat (map (λ l, py l ++ [10%N]) lines).

(** ** Code points the script names *)

Local Open Scope N_scope.

Definition ch_newline : N := 10.
Definition ch_hash : N := 35.
Definition ch_star : N := 42.
Definition ch_dot : N := 46.
Definition ch_slash : N := 47.
Definition ch_backtick : N := 96.
Definition ch_space : N := 32.

(** ** [str] methods *)

(** [c.isspace()], which is also what [str.strip()] removes and what [\s]
    matches in a [str] pattern. *)
Definition isspace (c : N) : bool :=
  ((9 <=? c) && (c <=? 13)) || ((28 <=? c) && (c <=? 32)) || (c =? 133) ||
  (c =? 160) || (c =? 5760) || ((8192 <=? c) && (c <=? 8202)) ||
  (c =? 8232) || (c =? 8233) || (c =? 8239) || (c =? 8287) || (c =? 12288).

(** The line boundaries of [str.splitlines()]. *)
Definition is_linebreak (c : N) : bool :=
  ((10 <=? c) && (c <=? 13)) || ((28 <=? c) && (c <=? 30)) || (c =? 133) ||
  (c =? 8232) || (c =? 8233).

Fixpoint drop_while (f : N → bool) (s : pystr) : pystr :=
  match s with
  | c :: s' => if f c then drop_while f s' else s
  | [] => []
  end.

Fixpoint take_while (f : N → bool) (s : pystr) : pystr :=
  match s with
  | c :: s' => if f c then c :: take_while f s' else []
  | [] => []
  end.

Definition lstrip (s : pystr) : pystr := drop_while isspace s.
Definition rstrip (s : pystr) : pystr := rev (drop_while isspace (rev s)).
Definition strip (s : pystr) : pystr := rstrip (lstrip s).

(** [s.rstrip('/')] *)
Definition rstrip_slash (s : pystr) : pystr :=
  rev (drop_while (N.eqb ch_slash) (rev s)).

Fixpoint startswith (pre s : pystr) : bool :=
  match pre, s with
  | [], _ => true
  | a :: pre', b :: s' => (a =? b) && startswith pre' s'
  | _ :: _, [] => false
  end.

Definition endswith (suf s : pystr) : bool := startswith (rev suf) (rev s).

(** [c in s] for a single character [c]. *)
Definition contains (c : N) (s : pystr) : bool := existsb (N.eqb c) s.

Definition is_empty (s : pystr) : bool :=
  match s with [] => true | _ => false end.

Definition str_eqb (a b : pystr) : bool := bool_decide (a = b).

(** [s.splitlines()]: [cur] is the line being read, reversed. *)
Fixpoint splitlines_from (cur : pystr) (s : pystr) : list pystr :=
  match s with
  | [] => if is_empty cur then [] else [rev cur]
  | c :: s' =>
      if is_linebreak c then
        rev cur ::
          match s' with
          | d :: s'' =>
              if (c =? 13) && (d =? 10) then splitlines_from [] s''
              else splitlines_from [] s'
          | [] => []
          end
      else splitlines_from (c :: cur) s'
  end.

Definition splitlines (s : pystr) : list pystr := splitlines_from [] s.

(** [s.split(sep)] for a one-character separator. *)
Fixpoint split_on (sep : N) (s : pystr) : list pystr :=
  match s with
  | [] => [[]]
  | c :: s' =>
      if c =? sep then [] :: split_on sep s'
      else match split_on sep s' with
           | w :: ws => (c :: w) :: ws
           | [] => [[c]]
           end
  end.

(** ["/".join(parts)] *)
Fixpoint join_slash (parts : list pystr) : pystr :=
  match parts with
  | [] => []
  | [p] => p
  | p :: rest => p ++ ch_slash :: join_slash rest
  end.

(** The first occurrence of [pat] in [s]: the text before it and after it. *)
Fixpoint find_sub (pat s : pystr) : option (pystr * pystr) :=
  if startswith pat s then Some ([], drop (length pat) s)
  else match s with
       | [] => None
       | c :: s' =>
           match find_sub pat s' with
           | Some (before, after) => Some (c :: before, after)
           | None => None
           end
       end.

(** [name.rfind('.')] *)
Fixpoint rfind (c : N) (s : pystr) : option nat :=
  match s with
  | [] => None
  | d :: s' =>
      match rfind c s' with
      | Some i => Some (S i)
      | None => if d =? c then Some 0%nat else None
      end
  end.

(** Lexicographic order on code points, the order of [sorted]. *)
Fixpoint str_leb (a b : pystr) : bool :=
  match a, b with
  | [], _ => true
  | _ :: _, [] => false
  | x :: a', y :: b' => (x <? y) || ((x =? y) && str_leb a' b')
  end.

Definition sorted (s : gset pystr) : list pystr :=
  merge_sort (λ a b, Is_true (str_leb a b)) (elements s).

Local Close Scope N_scope.

(** ** [pathlib.PurePosixPath] *)

(** The components after the root: empty and ["."] components are dropped. *)
Definition path_tail (p : pystr) : list pystr :=
  List.filter (λ x, negb (is_empty x) && negb (str_eqb x [ch_dot]))
    (split_on ch_slash p).

(** The root: ["//"] for exactly two leading slashes, else ["/"] or none. *)
Definition path_root (p : pystr) : pystr :=
  match p with
  | 47 :: 47 :: 47 :: _ => [ch_slash]
  | 47 :: 47 :: _ => [ch_slash; ch_slash]
  | 47 :: _ => [ch_slash]
  | _ => []
  end%N.

(** [Path(p).parts] *)
Definition path_parts (p : pystr) : list pystr :=
  (if is_empty (path_root p) then [] else [path_root p]) ++ path_tail p.

(** [Path(p).name] *)
Definition path_name (p : pystr) : pystr := List.last (path_tail p) [].

(** The suffix of a final component. *)
Definition name_suffix (name : pystr) : pystr :=
  match rfind ch_dot name with
  | Some i =>
      if bool_decide (0 < i < length name - 1)%nat then drop i name else []
  | None => []
  end.

(** [Path(p).suffix] *)
Definition path_suffix (p : pystr) : pystr := name_suffix (path_name p).

(** ** Configuration *)

(** The four ignore sets of the script. A pattern of [IGNORE_PATTERNS] is
    kept as the test [re.match(pattern, path)] it is used for. *)
Record IgnoreRules := {
  IGNORE_DIRS : gset pystr;
  IGNORE_FILES : gset pystr;
  IGNORE_EXTENSIONS : gset pystr;
  IGNORE_PATTERNS : list (pystr → bool);
}.

(** [re.match] of a pattern [.*LIT$] for literal text [lit] without newline:
    [.] stops at a newline and [$] also matches before a final newline. *)
Definition re_match_dotstar_lit_end (lit p : pystr) : bool :=
  let at_end s :=
    endswith lit s &&
    negb (contains ch_newline (take (length s - length lit) s)) in
  at_end p || (endswith [ch_newline] p && at_end (removelast p)).

Definition script_rules : IgnoreRules := {|
  IGNORE_DIRS :=
    {[ py ".git"; py "node_modules"; py ".vscode"; py ".idea";
       py "__pycache__" ]};
  IGNORE_FILES :=
    {[ py "manage_structure.py"; py "structure.md"; py "bun.lockb";
       py "package-lock.json"; py ".DS_Store" ]};
  IGNORE_EXTENSIONS :=
    {[ py ".png"; py ".sql"; py ".svg"; py ".ico"; py ".lockb" ]};
  IGNORE_PATTERNS :=
    [ re_match_dotstar_lit_end (py ".pyc");
      re_match_dotstar_lit_end (py ".log") ];
|}.

(** [x in s] *)
Definition mem (x : pystr) (s : gset pystr) : bool := bool_decide (x ∈ s).

Local Open Scope N_scope.

Definition is_ascii (c : N) : bool := c <? 128.

Definition ascii_lower (c : N) : N :=
  if (65 <=? c) && (c <=? 90) then c + 32 else c.

Definition ascii_isalnum (c : N) : bool :=
  ((48 <=? c) && (c <=? 57)) || ((65 <=? c) && (c <=? 90)) ||
  ((97 <=? c) && (c <=? 122)).

(** The glyphs of the decoration prefix: [│├└\s─]. *)
Definition is_decoration (c : N) : bool :=
  (c =? 9474) || (c =? 9500) || (c =? 9492) || isspace c || (c =? 9472).

Definition fence : pystr := [ch_backtick; ch_backtick; ch_backtick].

Local Close Scope N_scope.

(** ** The line pattern of line 61

    Group 1 is a greedy run of decoration glyphs, group 2 a lazy run of any
    characters, then an optional comment (white space, [#], anything) and the
    end of the line. A line of [splitlines()] holds no newline, so [.]
    matches each of its characters and the pattern always matches (line 62
    never skips): group 1 is the longest run of decoration glyphs, group 2
    the shortest text after it that is followed by the end of the line or by
    white space and [#]. *)

Definition starts_comment (s : pystr) : bool :=
  match drop_while isspace s with
  | c :: _ => N.eqb c ch_hash
  | [] => false
  end.

Fixpoint lazy_node (s : pystr) : pystr :=
  match s with
  | [] => []
  | c :: s' => if starts_comment s then [] else c :: lazy_node s'
  end.

Definition match_line (line : pystr) : pystr * pystr :=
  (take_while is_decoration line, lazy_node (drop_while is_decoration line)).

(** ** The file system, as [os.walk] reads it *)

(** A directory holds the names [os.walk] lists as files and its
    subdirectories, in listing order. [Closed] is a directory that its parent
    lists but [os.walk] does not enter: [scandir] fails on it (the error is
    dropped, [onerror] is [None]) or it is a symbolic link ([followlinks] is
    [False]). A name is a single path component: not empty, without [/], not
    ["."]. *)
#[warnings="-register-all"]
Inductive fs_dir :=
| Dir (filenames : list pystr) (subdirs : list (pystr * fs_dir))
| Closed.

(** [os.walk(root, topdown=True)] when the caller replaces [dirnames] by the
    names that satisfy [keep] before the descent: the triples
    [(dirpath, dirnames, filenames)] in the order they are yielded, [dirpath]
    as its components below the root. *)
Fixpoint os_walk (keep : pystr → bool) (dirpath : list pystr) (d : fs_dir)
  : list (list pystr * list pystr * list pystr) :=
  match d with
  | Closed => []
  | Dir filenames subdirs =>
      (dirpath, map fst subdirs, filenames) ::
      flat_map (λ sub : pystr * fs_dir,
                  if keep (fst sub)
                  then os_walk keep (dirpath ++ [fst sub]) (snd sub)
                  else [])
               subdirs
  end.

(** [as_posix()] of a relative path given by its components *)
Definition as_posix (rel : list pystr) : pystr :=
  match rel with
  | [] => [ch_dot]
  | _ => join_slash rel
  end.

(** ** Reading the documentation file; what the script prints *)

Inductive exception :=
| PermissionError
| IsADirectoryError
| UnicodeDecodeError.

(** What [open(md_file, 'r', encoding='utf-8')] and [f.read()] do. *)
Inductive read_result :=
| ReadText (content : pystr)
| ReadFileNotFoundError
| ReadRaises (e : exception).

(** The [print] calls, by line of the script. *)
Inductive message :=
| MsgNotFound                                  (* line 49 *)
| MsgNoCodeBlock                               (* line 53 *)
| MsgBanner (cfg : IgnoreRules)                (* lines 160 to 164 *)
| MsgFound (n : nat)                           (* line 168 *)
| MsgParsing                                   (* line 169 *)
| MsgDocumented (n : nat)                      (* lines 172, 173 *)
| MsgSuccess                                   (* line 177 *)
| MsgMissingInDocs (items : list pystr)        (* lines 180, 181 *)
| MsgMissingInProject (items : list pystr)     (* lines 183, 184 *)
| MsgCouldNotVerify.                           (* line 186 *)

(** A call either returns, having printed [out], or an exception leaves it. *)
Inductive outcome (A : Type) :=
| Returns (out : list message) (value : A)
| Raises (out : list message) (e : exception).
Arguments Returns {A} out value.
Arguments Raises {A} out e.

(** ** Inputs for the examples *)

(** Tables for texts whose characters outside ASCII are neither cased nor
    alphanumeric, as the box-drawing glyphs of a diagram are. *)
Definition uncased : pystr → pystr := λ s, s.
Definition no_alnum : N → bool := λ _, false.

(** A tree and a diagram to try the properties on. *)
Definition sample_tree : fs_dir :=
  Dir [py ".git"; py "README.md"; py "logo.PNG"; py "debug.log"]
      [(py "src",
        Dir [py "utils.ts"]
            [(py "components", Dir [py "Button.tsx"; py "x.pyc"] []);
             (py "node_modules", Dir [py "x.js"] [])]);
       (py ".git", Dir [py "HEAD"] []);
       (py "link", Closed)].

(** [sample_tree] with other contents in its ignored directories. *)
Definition sample_tree_changed : fs_dir :=
  Dir [py ".git"; py "README.md"; py "logo.PNG"; py "debug.log"]
      [(py "src",
        Dir [py "utils.ts"]
            [(py "components", Dir [py "Button.tsx"; py "x.pyc"] []);
             (py "node_modules",
              Dir [py "y.js"] [(py "lib", Dir [py "z.js"] [])])]);
       (py ".git", Closed);
       (py "link", Closed)].

(** A tree whose scanned names a diagram can carry. *)
Definition plain_tree : fs_dir :=
  Dir [py "README.md"; py "logo.PNG"; py "debug.log"]
      [(py "src",
        Dir [py "utils.ts"]
            [(py "components", Dir [py "Button.tsx"; py "x.pyc"] []);
             (py "node_modules", Dir [py "x.js"] []);
             (py "empty", Dir [] [])]);
       (py ".git", Dir [py "HEAD"] []);
       (py "link", Closed);
       (py "docs", Dir [py "a b.md"] [])].

Section Unicode.

(** The interpreter's Unicode tables, consulted only for text that is not
    ASCII: [str.lower] and [str.isalnum]. *)
Variable unicode_lower : pystr → pystr.
Variable unicode_isalnum : N → bool.

(** [s.lower()] *)
Definition lower (s : pystr) : pystr :=
  if forallb is_ascii s then map ascii_lower s else unicode_lower s.

(** [\w] in a [str] pattern *)
Definition is_word (c : N) : bool :=
  if is_ascii c then ascii_isalnum c || N.eqb c 95 else unicode_isalnum c.

(** ** The code-block pattern of line 51, under [re.DOTALL]: three
    backticks, an optional group of word characters and a newline, a lazy
    group 1 of any characters, three backticks *)

(** The pattern tried at the start of [s]; the result is group 1. The
    optional group is tried first (every word character is taken and a
    newline must follow); when the rest cannot match after it, the match is
    retried without the group. *)
Definition match_code_block (s : pystr) : option pystr :=
  if startswith fence s then
    let rest := drop 3 s in
    let with_tag :=
      match drop_while is_word rest with
      | c :: body =>
          if N.eqb c ch_newline then fst <$> find_sub fence body else None
      | [] => None
      end in
    match with_tag with
    | Some g => Some g
    | None => fst <$> find_sub fence rest
    end
  else None.

(** [re.search]: the first position where the pattern matches. *)
Fixpoint search_code_block (s : pystr) : option pystr :=
  match match_code_block s with
  | Some g => Some g
  | None =>
      match s with
      | [] => None
      | _ :: s' => search_code_block s'
      end
  end.

(** ** The loop body of [extract_documented_paths] (lines 58 to 89) *)

(** [path_stack] and [documented_paths_full] *)
Definition parse_state : Type := list (pystr * nat) * gset pystr.

(** Line 72: [while path_stack and indent <= path_stack[-1][1]: pop()]. *)
Fixpoint unwind (indent : nat) (path_stack : list (pystr * nat))
  : list (pystr * nat) :=
  match path_stack with
  | (p, i) :: below =>
      if (indent <=? i)%nat then unwind indent below else path_stack
  | [] => []
  end.

(** Line 73 *)
Definition parent_of (path_stack : list (pystr * nat)) : pystr :=
  match path_stack with
  | (p, _) :: _ => p
  | [] => []
  end.

(** Lines 74 to 77: [None] is the [continue] of line 76. *)
Definition current_path_of (cfg : IgnoreRules) (parent_path node_part : pystr)
  : option pystr :=
  if negb (is_empty parent_path) && negb (startswith [ch_slash] node_part)
  then Some (parent_path ++ ch_slash :: node_part)
  else if mem (rstrip_slash node_part) (IGNORE_DIRS cfg)
          || mem (rstrip_slash node_part) (IGNORE_FILES cfg)
       then None
       else Some node_part.

(** Lines 78 to 89, with the stack already unwound. *)
Definition record_entry (cfg : IgnoreRules) (indent : nat)
    (node_part current_path : pystr) (st : parse_state) : parse_state :=
  let '(path_stack, documented_paths_full) := st in
  let is_dir := endswith [ch_slash] node_part in
  let clean_path := rstrip_slash current_path in
  if mem (path_name clean_path) (IGNORE_DIRS cfg) then st else
  if negb is_dir
     && mem (lower (path_suffix clean_path)) (IGNORE_EXTENSIONS cfg)
  then st else
  if mem (path_name clean_path) (IGNORE_FILES cfg) then st else
  let final_path := if is_dir then clean_path ++ [ch_slash] else clean_path in
  let documented_paths_full :=
    if negb (existsb (λ part, mem part (IGNORE_DIRS cfg))
               (path_parts final_path))
    then {[ final_path ]} ∪ documented_paths_full
    else documented_paths_full in
  let path_stack :=
    if is_dir && negb (mem (path_name clean_path) (IGNORE_DIRS cfg))
    then (clean_path, indent) :: path_stack
    else path_stack in
  (path_stack, documented_paths_full).

(** Lines 59 to 89 *)
Definition process_line (cfg : IgnoreRules) (st : parse_state) (line : pystr)
  : parse_state :=
  let '(path_stack, documented_paths_full) := st in
  let line_strip := strip line in
  if is_empty line_strip || str_eqb line_strip [ch_dot] then st else
  let '(prefix, node_part) := match_line line in
  let node_part := strip node_part in
  if is_empty node_part then st else
  let potential_node_name := rstrip_slash node_part in
  if contains ch_star node_part then st else
  if (mem potential_node_name (IGNORE_DIRS cfg)
      || mem potential_node_name (IGNORE_FILES cfg))
     && bool_decide (path_stack = [])
  then st else
  if endswith [ch_slash] node_part
     && mem potential_node_name (IGNORE_DIRS cfg)
  then st else
  let indent := length prefix in
  let path_stack := unwind indent path_stack in
  let parent_path := parent_of path_stack in
  match current_path_of cfg parent_path node_part with
  | None => (path_stack, documented_paths_full)
  | Some current_path =>
      record_entry cfg indent node_part current_path
        (path_stack, documented_paths_full)
  end.

(** Lines 91 to 98: the final filter. *)
Definition final_keep (cfg : IgnoreRules) (p : pystr) : bool :=
  negb (mem (path_name p) (IGNORE_FILES cfg))
  && (negb (endswith [ch_slash] p)
      || negb (mem (path_name p) (IGNORE_DIRS cfg)))
  && negb (existsb (λ part, mem part (IGNORE_DIRS cfg)) (path_parts p))
  && (endswith [ch_slash] p
      || negb (mem (lower (path_suffix p)) (IGNORE_EXTENSIONS cfg))).

(** Lines 56 to 89: the lines of a code block, from an empty stack. *)
Definition parse_lines (cfg : IgnoreRules) (lines : list pystr) : parse_state :=
  foldl (process_line cfg) ([], ∅) lines.

(** Lines 51 to 99, on the text of the file: [None] is the [return None] of
    line 54. *)
Definition extract_from_content (cfg : IgnoreRules) (content : pystr)
  : option (gset pystr) :=
  match search_code_block content with
  | None => None
  | Some group1 =>
      let code_block_content := strip group1 in
      let lines := splitlines code_block_content in
      let documented_paths_full := snd (parse_lines cfg lines) in
      Some (filter (λ p, Is_true (final_keep cfg p)) documented_paths_full)
  end.

(** ** [scan_project_files_for_verify] *)

(** Lines 31 to 40 for one file name: the path added, if any. *)
Definition scan_file (cfg : IgnoreRules) (relative_dir : list pystr)
    (filename : pystr) : option pystr :=
  if mem filename (IGNORE_FILES cfg) then None else
  let file_ext := lower (name_suffix filename) in
  if mem file_ext (IGNORE_EXTENSIONS cfg) then None else
  let relative_file_path := as_posix (relative_dir ++ [filename]) in
  if existsb (λ pattern, pattern relative_file_path) (IGNORE_PATTERNS cfg)
  then None else
  if str_eqb (as_posix relative_dir) [ch_dot] then Some filename
  else Some relative_file_path.

(** Lines 27 to 40 for one triple of the walk: the paths added, in order,
    each with [true] when line 30 adds it (a directory) and [false] when
    line 39 or 40 does (a file). *)
Definition scan_dir (cfg : IgnoreRules)
    (triple : list pystr * list pystr * list pystr) : list (bool * pystr) :=
  let relative_dir := triple.1.1 in
  (if str_eqb (as_posix relative_dir) [ch_dot] then []
   else [(true, as_posix relative_dir ++ [ch_slash])])
  ++ omap (λ filename, pair false <$> scan_file cfg relative_dir filename)
       triple.2.

(** Every path the scan adds, in the order it adds them. *)
Definition scan_entries (cfg : IgnoreRules) (root : fs_dir)
  : list (bool * pystr) :=
  flat_map (scan_dir cfg)
    (os_walk (λ d, negb (mem d (IGNORE_DIRS cfg))) [] root).

Definition scan_project_files_for_verify (cfg : IgnoreRules) (root : fs_dir)
  : gset pystr :=
  list_to_set (snd <$> scan_entries cfg root).

(** ** [extract_documented_paths] and the driver *)

(** Lines 43 to 99: only [FileNotFoundError] is caught. *)
Definition extract_documented_paths (cfg : IgnoreRules) (md_file : read_result)
  : outcome (option (gset pystr)) :=
  match md_file with
  | ReadFileNotFoundError => Returns [MsgNotFound] None
  | ReadRaises e => Raises [] e
  | ReadText content =>
      match extract_from_content cfg content with
      | None => Returns [MsgNoCodeBlock] None
      | Some final_documented_paths => Returns [] (Some final_documented_paths)
      end
  end.

(** Lines 160 to 186: the driver in [verify] mode. *)
Definition main_verify (cfg : IgnoreRules) (root : fs_dir)
    (md_file : read_result) : outcome unit :=
  let actual_files := scan_project_files_for_verify cfg root in
  let out := [MsgBanner cfg; MsgFound (size actual_files); MsgParsing] in
  match extract_documented_paths cfg md_file with
  | Raises out' e => Raises (out ++ out') e
  | Returns out' None => Returns (out ++ out' ++ [MsgCouldNotVerify]) ()
  | Returns out' (Some documented_files) =>
      let missing_in_docs := actual_files ∖ documented_files in
      let missing_in_project := documented_files ∖ actual_files in
      Returns
        (out ++ out' ++ [MsgDocumented (size documented_files)] ++
         (if bool_decide (missing_in_docs = ∅)
             && bool_decide (missing_in_project = ∅)
          then [MsgSuccess]
          else
            (if bool_decide (missing_in_docs = ∅) then []
             else [MsgMissingInDocs (sorted missing_in_docs)]) ++
            (if bool_decide (missing_in_project = ∅) then []
             else [MsgMissingInProject (sorted missing_in_project)])))
        ()
  end.

(** ** What a diagram line denotes *)

(** The node token of a line (line 64) and its indentation (line 71). *)
Definition node_token (line : pystr) : pystr := strip (match_line line).2.
Definition indentation (line : pystr) : nat := length (match_line line).1.

(** Lines 60 to 70: the line is passed over before the stack is touched. *)
Definition skipped_early (cfg : IgnoreRules) (path_stack : list (pystr * nat))
    (line : pystr) : bool :=
  is_empty (strip line) || str_eqb (strip line) [ch_dot]
  || is_empty (node_token line)
  || contains ch_star (node_token line)
  || ((mem (rstrip_slash (node_token line)) (IGNORE_DIRS cfg)
       || mem (rstrip_slash (node_token line)) (IGNORE_FILES cfg))
      && bool_decide (path_stack = []))
  || (endswith [ch_slash] (node_token line)
      && mem (rstrip_slash (node_token line)) (IGNORE_DIRS cfg)).

(** The path of lines 74 and 77 when line 76 does not drop the line. *)
Definition joined_path (below : list (pystr * nat)) (node_part : pystr)
  : pystr :=
  if negb (is_empty (parent_of below))
     && negb (startswith [ch_slash] node_part)
  then parent_of below ++ ch_slash :: node_part
  else node_part.


(** ** Well-formed directory trees *)

(** A name of a directory entry: not empty, without [/], not ["."]. *)
Definition valid_name (name : pystr) : bool :=
  negb (is_empty name) && negb (contains ch_slash name)
  && negb (str_eqb name [ch_dot]).

Fixpoint valid_tree (d : fs_dir) : bool :=
  match d with
  | Closed => true
  | Dir filenames subdirs =>
      forallb valid_name filenames
      && forallb (λ sub : pystr * fs_dir,
                    valid_name (fst sub) && valid_tree (snd sub)) subdirs
  end.

(** ** The diagram of a scan *)

(** Modelled from the spec: the serializer of the round-trip property
    ("a tree diagram generated by serializing the Filesystem Scanner's output
    into a tree format (depth = path-component count)"), which the repository
    does not contain. A path is rendered on one line: [unit] spaces for each
    of its components, then its final component, with the slash of a
    directory. *)
Definition diagram_line (unit : nat) (p : pystr) : pystr :=
  replicate (unit * length (path_parts p)) ch_space
  ++ path_name p ++ (if endswith [ch_slash] p then [ch_slash] else []).

(** Modelled from the spec: the documentation text of the round-trip
    property, a fenced block with the root marker on its first line (depth
    0) and then the lines of the paths, in the order given. *)
Definition diagram (unit : nat) (paths : list pystr) : pystr :=
  fence ++ ch_newline :: ch_dot :: ch_newline
        :: concat (map (λ p, diagram_line unit p ++ [ch_newline]) paths)
  ++ fence.

(** A name that a diagram line can carry: it holds no wildcard, comment
    mark, backtick or line boundary, it does not begin with a decoration
    glyph or white space, it does not end with white space, and it is in
    neither [IGNORE_DIRS] nor [IGNORE_FILES]. *)
Definition plain_name (cfg : IgnoreRules) (name : pystr) : bool :=
  negb (contains ch_star name) && negb (contains ch_hash name)
  && negb (contains ch_backtick name) && negb (existsb is_linebreak name)
  && negb (match name with c :: _ => is_decoration c | [] => true end)
  && negb (match rev name with c :: _ => isspace c | [] => true end)
  && negb (mem name (IGNORE_DIRS cfg)) && negb (mem name (IGNORE_FILES cfg)).

(** ** Notions of the statements and proofs *)

(** The rules of [IGNORE_PATTERNS] take no part in the parse. *)
Definition with_patterns (cfg : IgnoreRules) (patterns : list (pystr → bool))
  : IgnoreRules :=
  {| IGNORE_DIRS := IGNORE_DIRS cfg;
     IGNORE_FILES := IGNORE_FILES cfg;
     IGNORE_EXTENSIONS := IGNORE_EXTENSIONS cfg;
     IGNORE_PATTERNS := patterns |}.

(** A text has a fenced code block when it holds two occurrences of the
    fence that do not overlap. *)
Definition has_code_block (content : pystr) : Prop :=
  ∃ a b c, content = a ++ fence ++ b ++ fence ++ c.

(** The four lines of the example diagram. *)
Definition example_block : pystr :=
  py_lines ["src/"; "  utils.ts"; "  components/"; "    Button.tsx"]%string.

(** The path of an entry: its components joined, and a slash for a
    directory. *)
Definition entry_path (comps : list pystr) (is_dir : bool) : pystr :=
  join_slash comps ++ (if is_dir then [ch_slash] else []).

(** The entries of the walk below [rel], each as the components of its path
    and whether it is a directory. *)
Fixpoint tree_entries (cfg : IgnoreRules) (rel : list pystr) (d : fs_dir)
  : list (list pystr * bool) :=
  match d with
  | Closed => []
  | Dir filenames subdirs =>
      (if bool_decide (rel = []) then [] else [(rel, true)])
      ++ omap (λ filename,
                 match scan_file cfg rel filename with
                 | Some _ => Some (rel ++ [filename], false)
                 | None => None
                 end) filenames
      ++ flat_map (λ sub : pystr * fs_dir,
                     if negb (mem (fst sub) (IGNORE_DIRS cfg))
                     then tree_entries cfg (rel ++ [fst sub]) (snd sub)
                     else []) subdirs
  end.

(** What the entries are made of: valid names, no ignored directory name
    among the directories of the path, and files the rules let through. *)
Definition entry_ok (cfg : IgnoreRules) (e : list pystr * bool) : Prop :=
  e.1 ≠ [] ∧
  Forall (λ n, valid_name n = true) e.1 ∧
  Forall (λ n, n ∉ IGNORE_DIRS cfg) (if e.2 then e.1 else removelast e.1) ∧
  (e.2 = false →
   is_Some (scan_file cfg (removelast e.1) (List.last e.1 []))).

(** The node token of an entry: its name, with the slash of a directory. *)
Definition entry_token (name : pystr) (is_dir : bool) : pystr :=
  name ++ (if is_dir then [ch_slash] else []).

(** The stack when the directories of [comps] are open: one entry for each
    prefix of [comps], the longest on top, each at the indentation of its
    depth. [rcomps] is [comps] reversed. *)
Fixpoint stack_of_rev (unit : nat) (rcomps : list pystr)
  : list (pystr * nat) :=
  match rcomps with
  | [] => []
  | _ :: below =>
      (join_slash (rev rcomps), unit * length rcomps)
      :: stack_of_rev unit below
  end.

Definition stack_of (unit : nat) (comps : list pystr) : list (pystr * nat) :=
  stack_of_rev unit (rev comps).

(** The directory left open by an entry: itself, or the one that holds it. *)
Definition open_path (e : list pystr * bool) : list pystr :=
  if e.2 then e.1 else removelast e.1.

Definition open_after (o : list pystr) (es : list (list pystr * bool))
  : list pystr :=
  foldl (λ _ e, open_path e) o es.

(** Entries are in diagram order from the open directory [o] when each one
    lies in a directory that is open when its line is read. *)
Fixpoint chain (o : list pystr) (es : list (list pystr * bool)) : Prop :=
  match es with
  | [] => True
  | e :: es' => removelast e.1 `prefix_of` o ∧ chain (open_path e) es'
  end.

(** Entries that keep [rel] open: read from any directory under [rel], they
    are in diagram order and end under [rel]. *)
Definition keeps_open (rel : list pystr) (es : list (list pystr * bool))
  : Prop :=
  ∀ o, rel `prefix_of` o →
       chain o es ∧ rel `prefix_of` open_after o es.

(** An entry that a diagram line can carry. *)
Definition entry_fit (cfg : IgnoreRules) (e : list pystr * bool) : Prop :=
  e.1 ≠ [] ∧
  Forall (λ n, valid_name n = true) e.1 ∧
  plain_name cfg (List.last e.1 []) = true ∧
  Forall (λ n, n ∉ IGNORE_DIRS cfg) e.1 ∧
  (e.2 = false →
   lower (name_suffix (List.last e.1 [])) ∉ IGNORE_EXTENSIONS cfg).

(** A first line and further lines, each after a newline. *)
Definition text_of (first : pystr) (lines : list pystr) : pystr :=
  first ++ concat (map (λ l, ch_newline :: l) lines).

(** A line without line boundary or backtick that ends in a character that
    is not white space. *)
Definition tidy_line (l : pystr) : Prop :=
  existsb is_linebreak l = false ∧ contains ch_backtick l = false ∧
  ∃ s d, l = s ++ [d] ∧ isspace d = false.

(** The entry that a path stands for. *)
Definition to_entry (p : pystr) : list pystr * bool :=
  (path_parts p, endswith [ch_slash] p).

(** The order of [sorted], as a relation. *)
Definition str_le (a b : pystr) : Prop := Is_true (str_leb a b).

(** ** Directory trees compared *)

(** The tree with the contents of every directory that has an ignored name
    emptied. *)
Fixpoint without_ignored_contents (cfg : IgnoreRules) (d : fs_dir) : fs_dir :=
  match d with
  | Closed => Closed
  | Dir filenames subdirs =>
      Dir filenames
        (map (λ sub : pystr * fs_dir,
                (fst sub,
                 if mem (fst sub) (IGNORE_DIRS cfg) then Dir [] []
                 else without_ignored_contents cfg (snd sub)))
           subdirs)
  end.

(** The tree without the directories that [os.walk] does not enter. *)
Fixpoint without_closed (d : fs_dir) : fs_dir :=
  match d with
  | Closed => Closed
  | Dir filenames subdirs =>
      Dir filenames
        (flat_map (λ sub : pystr * fs_dir,
                     match snd sub with
                     | Closed => []
                     | Dir _ _ => [(fst sub, without_closed (snd sub))]
                     end)
           subdirs)
  end.

(** [at_path root rel d]: the directory [d] is found in [root] under the
    names [rel]. *)
Inductive at_path (root : fs_dir) : list pystr → fs_dir → Prop :=
| at_root : at_path root [] root
| at_sub rel filenames subdirs name d :
    at_path root rel (Dir filenames subdirs) →
    (name, d) ∈ subdirs →
    at_path root (rel ++ [name]) d.

(** The skips of lines 65 to 70, which look at the node token only. *)
Definition token_skipped (cfg : IgnoreRules)
    (path_stack : list (pystr * nat)) (node_part : pystr) : bool :=
  is_empty node_part
  || contains ch_star node_part
  || ((mem (rstrip_slash node_part) (IGNORE_DIRS cfg)
       || mem (rstrip_slash node_part) (IGNORE_FILES cfg))
      && bool_decide (path_stack = []))
  || (endswith [ch_slash] node_part
      && mem (rstrip_slash node_part) (IGNORE_DIRS cfg)).

(** ** Peek mode: [peek_into_file], [scan_and_peek] and the driver *)

(** What opening a file and iterating over it gives: the lines the file
    object yields and whether asking it for one more raises, or an exception
    from [open] itself. *)
Inductive peek_source :=
| PeekLines (lines : list pystr) (then_raises : bool)
| PeekOpenRaises.

(** The [print] calls of peek mode, by line of the script. *)
Inductive peek_output :=
| PeekBanner (cfg : IgnoreRules)                (* lines 160 to 164 *)
| PeekHeader (relative : pystr) (num_lines : Z) (* line 103 *)
| PeekText (line : pystr)                       (* line 111 *)
| PeekEOF                                       (* line 114 *)
| PeekNewline                                   (* line 115 *)
| PeekError                                     (* line 116 *)
| PeekRule (width : nat)                        (* line 117 *)
| PeekProcessed (file_count : nat)              (* line 136 *)
| PeekLinesNotPositive                          (* line 190 *)
| PeekStart (lines : Z).                        (* line 192 *)

(** Lines 109 to 113: the loop over [enumerate(f)], from index [i]. The
    result is what is printed, [lines_read], [last_line], and whether the
    file object was asked for a line after its last. *)
Fixpoint peek_loop (num_lines i : Z) (f : list pystr) (lines_read : Z)
    (last_line : pystr) : list peek_output * Z * pystr * bool :=
  match f with
  | [] => ([], lines_read, last_line, true)
  | line :: f' =>
      if (num_lines <=? i)%Z then ([], lines_read, last_line, false)
      else
        let '(printed, n, l, asked) :=
          peek_loop num_lines (i + 1) f' (lines_read + 1) line in
        (PeekText line :: printed, n, l, asked)
  end.

(** Lines 101 to 117. [relative] is the file's path below [WORKSPACE_ROOT],
    as a string. Every exception of the [try] block is caught. *)
Definition peek_into_file (relative : pystr) (source : peek_source)
    (num_lines : Z) : list peek_output :=
  PeekHeader relative num_lines ::
  match source with
  | PeekOpenRaises => [PeekError]
  | PeekLines lines then_raises =>
      let '(printed, lines_read, last_line, asked) :=
        peek_loop num_lines 0 lines 0 [] in
      printed ++
      (if asked && then_raises then [PeekError]
       else
         (if (lines_read <? num_lines)%Z && (0 <? lines_read)%Z
          then [PeekEOF] else [])
         ++ (if (0 <? lines_read)%Z
                && negb (endswith [ch_newline] last_line)
             then [PeekNewline] else []))
  end
  ++ [PeekRule (length relative + 25)].

(** Lines 126 to 133 for one file name: the path to peek into, if any. *)
Definition peek_file (cfg : IgnoreRules) (relative_dir : list pystr)
    (filename : pystr) : option (list pystr) :=
  let relative_file_path := as_posix (relative_dir ++ [filename]) in
  if mem filename (IGNORE_FILES cfg) then None else
  let file_ext := lower (name_suffix filename) in
  if mem file_ext (IGNORE_EXTENSIONS cfg) then None else
  if existsb (λ pattern, pattern relative_file_path) (IGNORE_PATTERNS cfg)
  then None else
  Some (relative_dir ++ [filename]).

(** The files [scan_and_peek] peeks into, in order, by components. *)
Definition peeked_files (cfg : IgnoreRules) (root : fs_dir)
  : list (list pystr) :=
  flat_map (λ triple : list pystr * list pystr * list pystr,
              omap (peek_file cfg triple.1.1) triple.2)
    (os_walk (λ d, negb (mem d (IGNORE_DIRS cfg))) [] root).

(** Lines 119 to 136, called on [WORKSPACE_ROOT] as the driver does; [read]
    is what opening and reading each file gives. *)
Definition scan_and_peek (cfg : IgnoreRules) (root : fs_dir)
    (read : list pystr → peek_source) (num_lines : Z) : list peek_output :=
  flat_map (λ file_path,
              peek_into_file (as_posix file_path) (read file_path) num_lines)
    (peeked_files cfg root)
  ++ [PeekProcessed (length (peeked_files cfg root))].

(** Lines 160 to 164 and 188 to 193: the driver in [peek] mode. *)
Definition main_peek (cfg : IgnoreRules) (root : fs_dir)
    (read : list pystr → peek_source) (lines : Z) : list peek_output :=
  PeekBanner cfg ::
  if (lines <=? 0)%Z then [PeekLinesNotPositive]
  else PeekStart lines :: scan_and_peek cfg root read lines.

(** * Properties *)

Lemma take_drop_while (f : N → bool) (s : pystr) :
  take_while f s ++ drop_while f s = s.
Proof.
  induction s as [|c s IH]; [done|]. simpl. destruct (f c); [|done].
  simpl. by rewrite IH.
Qed.

(** ** [strip] and the line pattern *)

Lemma drop_while_all (f : N → bool) (s t : pystr) :
  forallb f s = true → drop_while f (s ++ t) = drop_while f t.
Proof.
  induction s as [|c s IH]; [done|]. simpl.
  intros [Hc Hs]%andb_prop. rewrite Hc. by apply IH.
Qed.

Lemma drop_while_nil (f : N → bool) (s : pystr) :
  forallb f s = true → drop_while f s = [].
Proof.
  intros Hs. rewrite <- (app_nil_r s). by rewrite drop_while_all.
Qed.

Lemma drop_while_nil_inv (f : N → bool) (s : pystr) :
  drop_while f s = [] → forallb f s = true.
Proof.
  induction s as [|c s IH]; [done|]. simpl.
  destruct (f c); [exact IH|done].
Qed.

Lemma drop_while_stop (f : N → bool) (c : N) (s : pystr) :
  f c = false → drop_while f (c :: s) = c :: s.
Proof. intros Hc. simpl. by rewrite Hc. Qed.

Lemma drop_while_head (f : N → bool) (s : pystr) (c : N) (t : pystr) :
  drop_while f s = c :: t → f c = false.
Proof.
  induction s as [|d s IH]; [done|]. simpl.
  destruct (f d) eqn:Hd; [exact IH|]. by intros [= <- <-].
Qed.

Lemma take_while_all (f : N → bool) (s : pystr) (c : N) (t : pystr) :
  forallb f s = true → f c = false →
  take_while f (s ++ c :: t) = s.
Proof.
  intros Hs Hc. induction s as [|d s IH]; simpl.
  - by rewrite Hc.
  - simpl in Hs. apply andb_prop in Hs as [Hd Hs]. rewrite Hd.
    by rewrite IH.
Qed.

Lemma forallb_rev (f : N → bool) (s : pystr) :
  forallb f (rev s) = forallb f s.
Proof.
  induction s as [|c s IH]; [done|]. simpl.
  rewrite forallb_app, IH. simpl. rewrite andb_true_r. apply andb_comm.
Qed.

Lemma space_is_decoration (s : pystr) :
  forallb isspace s = true → forallb is_decoration s = true.
Proof.
  induction s as [|c s IH]; [done|]. simpl.
  intros [Hc Hs]%andb_prop. rewrite (IH Hs), andb_true_r.
  unfold is_decoration. rewrite Hc. by rewrite !orb_true_r.
Qed.

(** [strip] gives the empty string only on white space. *)
Lemma strip_nil_inv (s : pystr) : strip s = [] → forallb isspace s = true.
Proof.
  unfold strip, rstrip, lstrip. intros Hs.
  assert (Hrev : drop_while isspace (rev (drop_while isspace s)) = []).
  { by rewrite <- (rev_involutive (drop_while _ (rev _))), Hs. }
  apply drop_while_nil_inv in Hrev. rewrite forallb_rev in Hrev.
  destruct (drop_while isspace s) as [|c t] eqn:Hdrop;
    [by apply drop_while_nil_inv|].
  apply drop_while_head in Hdrop. simpl in Hrev. by rewrite Hdrop in Hrev.
Qed.

Lemma rstrip_snoc (s : pystr) (c : N) :
  isspace c = false → rstrip (s ++ [c]) = s ++ [c].
Proof.
  intros Hc. unfold rstrip. rewrite rev_app_distr. simpl.
  rewrite Hc. simpl. by rewrite rev_involutive.
Qed.

Lemma rstrip_app_space (s b : pystr) :
  forallb isspace b = true → rstrip (s ++ b) = rstrip s.
Proof.
  intros Hb. unfold rstrip. rewrite rev_app_distr.
  rewrite drop_while_all; [done|]. by rewrite forallb_rev.
Qed.

Lemma forallb_take_while (f : N → bool) (s : pystr) :
  forallb f (take_while f s) = true.
Proof.
  induction s as [|c s IH]; [done|]. simpl.
  destruct (f c) eqn:Hc; [|done]. simpl. by rewrite Hc.
Qed.

Lemma rstrip_inv (t : pystr) :
  ∃ b, t = rstrip t ++ b ∧ forallb isspace b = true.
Proof.
  exists (rev (take_while isspace (rev t))). split.
  - unfold rstrip. rewrite <- rev_app_distr, take_drop_while.
    by rewrite rev_involutive.
  - rewrite forallb_rev. apply forallb_take_while.
Qed.

(** A string that is white space around a core [t] that neither begins nor
    ends with white space strips to [t], and every stripped string arises
    so. *)
Lemma strip_inv (s : pystr) :
  ∃ a b, s = a ++ strip s ++ b ∧
         forallb isspace a = true ∧ forallb isspace b = true.
Proof.
  destruct (rstrip_inv (lstrip s)) as (b & Hb & Hspace).
  exists (take_while isspace s), b. split; [|split; [|done]].
  - unfold strip. rewrite <- Hb. unfold lstrip.
    by rewrite take_drop_while.
  - apply forallb_take_while.
Qed.

Lemma lazy_node_space (b : pystr) :
  forallb isspace b = true → lazy_node b = b.
Proof.
  induction b as [|c b IH]; [done|]. intros Hb.
  cbn [lazy_node]. unfold starts_comment.
  rewrite (drop_while_nil _ _ Hb).
  simpl in Hb. apply andb_prop in Hb as [_ Hb]. by rewrite (IH Hb).
Qed.

(** A blank line has no node token; the token of a lone root marker is the
    marker. *)
Lemma node_token_blank (line : pystr) :
  strip line = [] → node_token line = [].
Proof.
  intros Hall%strip_nil_inv%space_is_decoration.
  unfold node_token, match_line. simpl.
  by rewrite (drop_while_nil _ _ Hall).
Qed.

Lemma node_token_root_marker (line : pystr) :
  strip line = [ch_dot] → node_token line = [ch_dot].
Proof.
  intros Hdot. destruct (strip_inv line) as (a & b & Hline & Ha & Hb).
  rewrite Hdot in Hline. unfold node_token, match_line. simpl.
  rewrite Hline at 1.
  rewrite (drop_while_all _ _ _ (space_is_decoration _ Ha)).
  change ([ch_dot] ++ b) with (ch_dot :: b). rewrite drop_while_stop by done.
  cbn [lazy_node]. unfold starts_comment at 1.
  rewrite drop_while_stop by done.
  change (N.eqb ch_dot ch_hash) with false. cbv iota.
  rewrite (lazy_node_space _ Hb).
  unfold strip, lstrip. rewrite drop_while_stop by done.
  change (ch_dot :: b) with ([ch_dot] ++ b).
  by rewrite (rstrip_app_space _ _ Hb).
Qed.

Lemma endswith_nil_false (c : N) : endswith [c] [] = false.
Proof. reflexivity. Qed.

(** A line whose token ends with a slash is neither blank nor the root
    marker. *)
Lemma directory_line_not_blank (line : pystr) :
  endswith [ch_slash] (node_token line) = true →
  is_empty (strip line) || str_eqb (strip line) [ch_dot] = false ∧
  is_empty (node_token line) = false.
Proof.
  intros Hdir. split.
  - apply orb_false_intro.
    + destruct (strip line) eqn:Hs; [|done].
      by rewrite (node_token_blank _ Hs) in Hdir.
    + apply bool_decide_eq_false. intros Hs.
      by rewrite (node_token_root_marker _ Hs) in Hdir.
  - by destruct (node_token line).
Qed.

(** ** The shape of one step *)

Lemma process_line_unfold cfg path_stack docs line :
  process_line cfg (path_stack, docs) line =
  if skipped_early cfg path_stack line then (path_stack, docs)
  else
    let below := unwind (indentation line) path_stack in
    match current_path_of cfg (parent_of below) (node_token line) with
    | None => (below, docs)
    | Some current_path =>
        record_entry cfg (indentation line) (node_token line) current_path
          (below, docs)
    end.
Proof.
  unfold process_line, skipped_early, node_token, indentation.
  destruct (match_line line) as [prefix node_part]; simpl.
  destruct (is_empty (strip line) || str_eqb (strip line) [ch_dot]);
    [done|simpl].
  destruct (is_empty (strip node_part)); [done|simpl].
  destruct (contains ch_star (strip node_part)); [done|simpl].
  destruct ((mem _ (IGNORE_DIRS cfg) || mem _ (IGNORE_FILES cfg)) && _);
    [done|simpl].
  by destruct (endswith [ch_slash] (strip node_part) && _).
Qed.

Lemma parse_lines_app cfg before after :
  parse_lines cfg (before ++ after) =
  foldl (process_line cfg) (parse_lines cfg before) after.
Proof. unfold parse_lines. apply foldl_app. Qed.

(** C9. A line whose node token contains the wildcard glyph leaves the parse
    stack and the set of documented paths as they were, so the diagram parses
    to the same state with or without the line. *)
Theorem wildcard_line_is_skipped cfg st line :
  contains ch_star (node_token line) = true →
  process_line cfg st line = st ∧
  ∀ before after,
    parse_lines cfg (before ++ line :: after) =
    parse_lines cfg (before ++ after).
Proof.
  intros Hstar.
  assert (Hskip : ∀ st', process_line cfg st' line = st').
  { intros [path_stack docs]. rewrite process_line_unfold.
    unfold skipped_early. rewrite Hstar.
    by rewrite !orb_true_r. }
  split; [apply Hskip|].
  intros before after. rewrite !parse_lines_app. simpl. by rewrite Hskip.
Qed.

(** ** The final filter *)

Lemma extract_final_keep cfg content docs p :
  extract_from_content cfg content = Some docs →
  p ∈ docs → final_keep cfg p = true.
Proof.
  unfold extract_from_content.
  destruct (search_code_block content); [|done].
  intros [= <-] Hin. apply elem_of_filter in Hin as [Hkeep _].
  by apply Is_true_eq_true.
Qed.

Lemma existsb_mem_false (dirs : gset pystr) (parts : list pystr) :
  existsb (λ part, mem part dirs) parts = false →
  ∀ part, part ∈ parts → part ∉ dirs.
Proof.
  intros Hex part Hin Hdir.
  assert (existsb (λ part, mem part dirs) parts = true); [|congruence].
  apply existsb_exists. exists part. split; [by apply list_elem_of_In|].
  by apply bool_decide_eq_true_2.
Qed.

Lemma mem_false (x : pystr) (s : gset pystr) : mem x s = false → x ∉ s.
Proof. unfold mem. by intros ?%bool_decide_eq_false. Qed.

Lemma mem_true (x : pystr) (s : gset pystr) : mem x s = true → x ∈ s.
Proof. unfold mem. by intros ?%bool_decide_eq_true. Qed.

(** C5, as the script has it. The parser applies the directory-name, the
    file-name and (for entries that are not directories) the extension rules
    of the scanner: no documented path has a final component in
    [IGNORE_FILES], a component in [IGNORE_DIRS] or, unless it ends with a
    slash, a lower-cased suffix in [IGNORE_EXTENSIONS]. The patterns of
    [IGNORE_PATTERNS] are not consulted: the result is the same whatever they
    are. *)
Theorem parser_applies_name_and_extension_rules cfg content docs p :
  extract_from_content cfg content = Some docs →
  p ∈ docs →
  (path_name p ∉ IGNORE_FILES cfg) ∧
  (∀ part, part ∈ path_parts p → part ∉ IGNORE_DIRS cfg) ∧
  (endswith [ch_slash] p = true → path_name p ∉ IGNORE_DIRS cfg) ∧
  (endswith [ch_slash] p = false →
   lower (path_suffix p) ∉ IGNORE_EXTENSIONS cfg) ∧
  (∀ patterns,
     extract_from_content (with_patterns cfg patterns) content = Some docs).
Proof.
  intros Hdocs Hp.
  pose proof (extract_final_keep _ _ _ _ Hdocs Hp) as Hkeep.
  unfold final_keep in Hkeep.
  apply andb_prop in Hkeep as [Hkeep Hext].
  apply andb_prop in Hkeep as [Hkeep Hparts].
  apply andb_prop in Hkeep as [Hfile Hdir].
  apply negb_true_iff in Hfile, Hparts.
  repeat split.
  - by apply mem_false.
  - by apply existsb_mem_false.
  - intros Hslash. rewrite Hslash in Hdir. simpl in Hdir.
    apply negb_true_iff in Hdir. by apply mem_false.
  - intros Hslash. rewrite Hslash in Hext. simpl in Hext.
    apply negb_true_iff in Hext. by apply mem_false.
  - intros patterns. exact Hdocs.
Qed.

(** ** The parse stack *)












Lemma current_path_of_joined cfg below node cur :
  current_path_of cfg (parent_of below) node = Some cur →
  cur = joined_path below node.
Proof.
  unfold current_path_of, joined_path.
  destruct (negb (is_empty (parent_of _)) && negb (startswith _ _));
    [congruence|].
  destruct (mem _ (IGNORE_DIRS cfg) || mem _ (IGNORE_FILES cfg)); congruence.
Qed.


(** C6, as the script has it. A directory line is pushed, with its path and
    its indentation, on the unwound stack whenever its token has no wildcard
    and neither the token without its slashes nor the final component of its
    path is in [IGNORE_DIRS] or [IGNORE_FILES]; whether the path entered the
    documented set plays no part. It is withheld when the token has a
    wildcard, or the token without its slashes or the final component of the
    path is in [IGNORE_DIRS], or that final component is in [IGNORE_FILES]. *)
Theorem directory_line_push cfg path_stack docs line :
  endswith [ch_slash] (node_token line) = true →
  let node := node_token line in
  let below := unwind (indentation line) path_stack in
  let clean_path := rstrip_slash (joined_path below node) in
  let after := (process_line cfg (path_stack, docs) line).1 in
  (contains ch_star node = false →
   rstrip_slash node ∉ IGNORE_DIRS cfg →
   rstrip_slash node ∉ IGNORE_FILES cfg →
   path_name clean_path ∉ IGNORE_DIRS cfg →
   path_name clean_path ∉ IGNORE_FILES cfg →
   after = (clean_path, indentation line) :: below) ∧
  (contains ch_star node = true ∨ rstrip_slash node ∈ IGNORE_DIRS cfg ∨
   path_name clean_path ∈ IGNORE_DIRS cfg ∨
   path_name clean_path ∈ IGNORE_FILES cfg →
   after = path_stack ∨ after = below).
Proof.
  intros Hdir. cbv zeta.
  destruct (directory_line_not_blank _ Hdir) as [Hblank Hnode].
  rewrite process_line_unfold. unfold skipped_early.
  rewrite Hblank, Hnode, Hdir. cbv zeta.
  set (node := node_token line) in *. set (ind := indentation line).
  set (below := unwind ind path_stack).
  assert (Hcur : ∀ cur, current_path_of cfg (parent_of below) node = Some cur
                        → cur = joined_path below node)
    by (intros cur; apply current_path_of_joined).
  split.
  - intros Hstar HtokD HtokF HownD HownF.
    rewrite Hstar.
    rewrite (bool_decide_eq_false_2 _ HtokD : mem _ _ = false).
    rewrite (bool_decide_eq_false_2 _ HtokF : mem _ _ = false). simpl.
    assert (Hsome : current_path_of cfg (parent_of below) node
                    = Some (joined_path below node)).
    { unfold current_path_of, joined_path.
      destruct (negb _ && negb _); [done|].
      rewrite (bool_decide_eq_false_2 _ HtokD : mem _ _ = false).
      by rewrite (bool_decide_eq_false_2 _ HtokF : mem _ _ = false). }
    rewrite Hsome. unfold record_entry. rewrite Hdir.
    rewrite (bool_decide_eq_false_2 _ HownD : mem _ _ = false).
    by rewrite (bool_decide_eq_false_2 _ HownF : mem _ _ = false).
  - intros Hwith.
    destruct (contains ch_star node); [by left|]. simpl.
    destruct (mem (rstrip_slash node) (IGNORE_DIRS cfg)) eqn:HtokD.
    { left. by rewrite orb_true_r. }
    destruct Hwith as [?|[HD|Hown]]; [done|by apply mem_false in HtokD|].
    rewrite orb_false_r. destruct (_ && bool_decide _); [by left|].
    right. cbn [orb].
    destruct (current_path_of cfg (parent_of below) node) as [cur|] eqn:Hc;
      [|done].
    rewrite (Hcur _ eq_refl). unfold record_entry.
    destruct Hown as [Hown|Hown].
    + by rewrite (bool_decide_eq_true_2 _ Hown : mem _ _ = true).
    + rewrite (bool_decide_eq_true_2 _ Hown : mem _ _ = true).
      destruct (mem (path_name (rstrip_slash (joined_path below node)))
                  (IGNORE_DIRS cfg)); [done|].
      destruct (negb (endswith [ch_slash] node) && _); reflexivity.
Qed.

(** ** Finding the code block *)

Lemma startswith_app (pre rest : pystr) : startswith pre (pre ++ rest) = true.
Proof.
  induction pre as [|c pre IH]; [done|]. simpl. by rewrite N.eqb_refl.
Qed.

Lemma startswith_inv (pre s : pystr) :
  startswith pre s = true → ∃ rest, s = pre ++ rest.
Proof.
  revert s. induction pre as [|c pre IH]; intros s Hs.
  - by exists s.
  - destruct s as [|d s]; [done|]. simpl in Hs.
    apply andb_prop in Hs as [->%N.eqb_eq Hs].
    destruct (IH _ Hs) as [rest ->]. by exists rest.
Qed.

Lemma contains_cons (c d : N) (s : pystr) :
  contains c (d :: s) = N.eqb c d || contains c s.
Proof. reflexivity. Qed.

Lemma startswith_fence_cons (c : N) (s : pystr) :
  N.eqb ch_backtick c = false → startswith fence (c :: s) = false.
Proof. intros Hc. unfold fence. cbn [startswith]. by rewrite Hc. Qed.

Lemma find_sub_fence_first (body post : pystr) :
  contains ch_backtick body = false →
  find_sub fence (body ++ fence ++ post) = Some (body, post).
Proof.
  induction body as [|c body IH]; intros Hbody; [done|].
  rewrite contains_cons in Hbody.
  apply orb_false_elim in Hbody as [Hc Hbody].
  change (find_sub fence ((c :: body) ++ fence ++ post)) with
    (if startswith fence (c :: body ++ fence ++ post)
     then Some ([], drop (length fence) (c :: body ++ fence ++ post))
     else match find_sub fence (body ++ fence ++ post) with
          | Some (before, after) => Some (c :: before, after)
          | None => None
          end).
  by rewrite (IH Hbody), (startswith_fence_cons _ _ Hc).
Qed.

Lemma search_code_block_matched (s g : pystr) :
  match_code_block s = Some g → search_code_block s = Some g.
Proof. destruct s; cbn [search_code_block]; by intros ->. Qed.

Lemma search_code_block_skip (pre rest g : pystr) :
  contains ch_backtick pre = false →
  match_code_block (fence ++ rest) = Some g →
  search_code_block (pre ++ fence ++ rest) = Some g.
Proof.
  intros Hpre Hmatch. induction pre as [|c pre IH].
  - by apply search_code_block_matched.
  - rewrite contains_cons in Hpre.
    apply orb_false_elim in Hpre as [Hc Hpre].
    change (search_code_block ((c :: pre) ++ fence ++ rest)) with
      (match match_code_block (c :: pre ++ fence ++ rest) with
       | Some g => Some g
       | None => search_code_block (pre ++ fence ++ rest)
       end).
    rewrite (IH Hpre). unfold match_code_block.
    by rewrite (startswith_fence_cons _ _ Hc).
Qed.

Lemma find_sub_Some_inv (pat s before after : pystr) :
  find_sub pat s = Some (before, after) → s = before ++ pat ++ after.
Proof.
  revert before. induction s as [|c s IH]; intros before.
  - simpl. destruct (startswith pat []) eqn:Hpat; [|done].
    intros [= <- <-]. destruct pat; [done|discriminate].
  - cbn [find_sub]. destruct (startswith pat (c :: s)) eqn:Hpat.
    + intros [= <- <-]. destruct (startswith_inv _ _ Hpat) as [rest ->].
      by rewrite drop_app_length.
    + destruct (find_sub pat s) as [[b a]|]; [|done].
      intros [= <- <-]. by rewrite (IH b eq_refl).
Qed.

Lemma find_sub_app_is_Some (pat b c : pystr) :
  is_Some (find_sub pat (b ++ pat ++ c)).
Proof.
  induction b as [|d b IH].
  - simpl app. destruct (pat ++ c) eqn:Hs; simpl;
      rewrite <- Hs, startswith_app; eauto.
  - change ((d :: b) ++ pat ++ c) with (d :: b ++ pat ++ c). cbn [find_sub].
    destruct (startswith pat _); [eauto|].
    destruct IH as [[x y] ->]. eauto.
Qed.

Lemma match_code_block_Some_inv (s g : pystr) :
  match_code_block s = Some g → has_code_block s.
Proof.
  unfold match_code_block. destruct (startswith fence s) eqn:Hs; [|done].
  destruct (startswith_inv _ _ Hs) as [rest ->].
  change (drop 3 (fence ++ rest)) with rest.
  destruct (drop_while is_word rest) as [|c body] eqn:Hdrop.
  - destruct (find_sub fence rest) as [[x y]|] eqn:Hfind; [|done].
    intros _. exists [], x, y. by rewrite (find_sub_Some_inv _ _ _ _ Hfind).
  - destruct (N.eqb c ch_newline) eqn:Hc;
      [destruct (find_sub fence body) as [[x y]|] eqn:Hbody|].
    + intros _. exists [], (take_while is_word rest ++ c :: x), y.
      rewrite <- (take_drop_while is_word rest) at 1. rewrite Hdrop.
      rewrite (find_sub_Some_inv _ _ _ _ Hbody). simpl.
      by rewrite <- !app_assoc.
    + destruct (find_sub fence rest) as [[x y]|] eqn:Hfind; [|done].
      intros _. exists [], x, y. by rewrite (find_sub_Some_inv _ _ _ _ Hfind).
    + destruct (find_sub fence rest) as [[x y]|] eqn:Hfind; [|done].
      intros _. exists [], x, y. by rewrite (find_sub_Some_inv _ _ _ _ Hfind).
Qed.

Lemma match_code_block_is_Some (b c : pystr) :
  is_Some (match_code_block (fence ++ b ++ fence ++ c)).
Proof.
  unfold match_code_block. rewrite startswith_app.
  change (drop 3 (fence ++ ?r)) with r.
  destruct (find_sub_app_is_Some fence b c) as [[x y] ->].
  destruct (match drop_while is_word (b ++ fence ++ c) with
            | [] => None
            | _ => _ end); eauto.
Qed.

Lemma search_code_block_cons (c : N) (s : pystr) :
  search_code_block (c :: s) =
  match match_code_block (c :: s) with
  | Some g => Some g
  | None => search_code_block s
  end.
Proof. reflexivity. Qed.

(** [re.search] finds no code block exactly in the texts that have none. *)
Lemma search_code_block_None (content : pystr) :
  search_code_block content = None ↔ ¬ has_code_block content.
Proof.
  split.
  - intros Hnone (a & b & c & ->). revert Hnone.
    induction a as [|d a IH].
    + destruct (match_code_block_is_Some b c) as [g Hg].
      intros Hnone.
      change (search_code_block (fence ++ b ++ fence ++ c) = None) in Hnone.
      by rewrite (search_code_block_matched _ _ Hg) in Hnone.
    + change ((d :: a) ++ ?r) with (d :: a ++ r).
      rewrite search_code_block_cons.
      destruct (match_code_block _); [done|]. exact IH.
  - intros Hno. destruct (search_code_block content) as [g|] eqn:Hg; [|done].
    exfalso. apply Hno. clear Hno. revert Hg.
    induction content as [|d s IH].
    + simpl. destruct (match_code_block []) eqn:Hm; [|done].
      intros _. by eapply match_code_block_Some_inv.
    + rewrite search_code_block_cons.
      destruct (match_code_block (d :: s)) eqn:Hm.
      * intros _. by eapply match_code_block_Some_inv.
      * intros (a & b & c & ->)%IH. by exists (d :: a), b, c.
Qed.

(** C7, as the script has it. [extract_documented_paths] returns [None],
    after one diagnostic, in exactly two cases: the file does not exist, or
    its text has no fenced code block; the driver then prints that it could
    not verify and ends normally. When the file is read and has a code
    block, a set is returned. Any other failure of [open] or [read] is not
    caught: the exception leaves the function, and the driver. *)
Theorem extract_failure_cases cfg root md_file :
  (∀ out, extract_documented_paths cfg md_file = Returns out None ↔
     (md_file = ReadFileNotFoundError ∧ out = [MsgNotFound]) ∨
     (∃ content, md_file = ReadText content ∧ ¬ has_code_block content ∧
                 out = [MsgNoCodeBlock])) ∧
  (∀ out, extract_documented_paths cfg md_file = Returns out None →
     main_verify cfg root md_file =
     Returns ([MsgBanner cfg;
               MsgFound (size (scan_project_files_for_verify cfg root));
               MsgParsing] ++ out ++ [MsgCouldNotVerify]) ()) ∧
  (∀ content, md_file = ReadText content → has_code_block content →
     ∃ docs, extract_documented_paths cfg md_file = Returns [] (Some docs) ∧
             ∃ out, main_verify cfg root md_file = Returns out ()) ∧
  (∀ e, md_file = ReadRaises e →
     extract_documented_paths cfg md_file = Raises [] e ∧
     ∃ out, main_verify cfg root md_file = Raises out e).
Proof.
  split; [|split; [|split]].
  - intros out. split.
    + destruct md_file as [content| |e]; simpl; [|naive_solver..].
      unfold extract_from_content.
      pose proof (search_code_block_None content) as Hnone.
      destruct (search_code_block content); [done|].
      intros [= <-]. right. exists content.
      split; [done|]. split; [by apply Hnone|done].
    + intros [[-> ->]|(content & -> & Hno & ->)]; [done|]. simpl.
      unfold extract_from_content.
      apply search_code_block_None in Hno. by rewrite Hno.
  - intros out Hnone. unfold main_verify. by rewrite Hnone.
  - intros content -> Hblock. unfold main_verify. simpl.
    unfold extract_from_content.
    pose proof (search_code_block_None content) as Hnone.
    destruct (search_code_block content); [eauto|].
    exfalso. by apply Hnone.
  - intros e ->. unfold main_verify. simpl. eauto.
Qed.

(** C2. A documentation text whose first fenced code block holds the lines
    [src/], [  utils.ts], [  components/], [    Button.tsx] documents exactly
    [src/], [src/utils.ts], [src/components/] and
    [src/components/Button.tsx]; the text before the block is any text
    without a backtick, the text after it is arbitrary. *)
Theorem example_diagram_paths pre post :
  contains ch_backtick pre = false →
  extract_from_content script_rules
    (pre ++ fence ++ ch_newline :: example_block ++ fence ++ post) =
  Some {[ py "src/"; py "src/utils.ts"; py "src/components/";
          py "src/components/Button.tsx" ]}.
Proof.
  intros Hpre. unfold extract_from_content.
  rewrite (search_code_block_skip pre _ example_block Hpre).
  - vm_compute. reflexivity.
  - unfold match_code_block. rewrite startswith_app.
    change (drop 3 (fence ++ ?r)) with r.
    change (drop_while is_word (ch_newline :: ?r)) with (ch_newline :: r).
    cbv iota beta. rewrite N.eqb_refl.
    by rewrite (find_sub_fence_first example_block post).
Qed.

(** ** Paths built from components *)

Lemma fs_dir_nested_ind (P : fs_dir → Prop) :
  P Closed →
  (∀ filenames subdirs,
     Forall (λ sub, P sub.2) subdirs → P (Dir filenames subdirs)) →
  ∀ d, P d.
Proof.
  intros Hclosed Hdir. fix IH 1. intros [filenames subdirs|]; [|exact Hclosed].
  apply Hdir. induction subdirs as [|[name d] subdirs IHsub].
  - constructor.
  - constructor; [apply IH|exact IHsub].
Qed.

Lemma split_on_no_sep (sep : N) (a : pystr) :
  contains sep a = false → split_on sep a = [a].
Proof.
  induction a as [|c a IH]; [done|]. rewrite contains_cons.
  intros [Hc Ha]%orb_false_elim. cbn [split_on].
  rewrite N.eqb_sym, Hc. by rewrite (IH Ha).
Qed.

Lemma split_on_app (sep : N) (a rest : pystr) :
  contains sep a = false →
  split_on sep (a ++ sep :: rest) = a :: split_on sep rest.
Proof.
  induction a as [|c a IH].
  - intros _. simpl. by rewrite N.eqb_refl.
  - rewrite contains_cons. intros [Hc Ha]%orb_false_elim.
    change ((c :: a) ++ sep :: rest) with (c :: a ++ sep :: rest).
    cbn [split_on]. rewrite N.eqb_sym, Hc. by rewrite (IH Ha).
Qed.

Lemma valid_name_inv (name : pystr) :
  valid_name name = true →
  name ≠ [] ∧ contains ch_slash name = false ∧ name ≠ [ch_dot].
Proof.
  unfold valid_name. intros [[H1 H2]%andb_prop H3]%andb_prop.
  apply negb_true_iff in H1, H2, H3. split; [by destruct name|].
  split; [done|]. by apply bool_decide_eq_false in H3.
Qed.

Lemma join_slash_cons (c : pystr) (comps : list pystr) :
  comps ≠ [] → join_slash (c :: comps) = c ++ ch_slash :: join_slash comps.
Proof. by destruct comps. Qed.

Lemma join_slash_snoc (comps : list pystr) (c : pystr) :
  comps ≠ [] → join_slash (comps ++ [c]) = join_slash comps ++ ch_slash :: c.
Proof.
  induction comps as [|d comps IH]; [done|]. intros _.
  destruct comps as [|e comps]; [done|].
  change ((d :: e :: comps) ++ [c]) with (d :: (e :: comps) ++ [c]).
  rewrite !join_slash_cons by done. rewrite IH by done.
  by rewrite <- app_assoc.
Qed.

Lemma split_on_join (comps : list pystr) :
  Forall (λ n, valid_name n = true) comps → comps ≠ [] →
  split_on ch_slash (join_slash comps) = comps ∧
  split_on ch_slash (join_slash comps ++ [ch_slash]) = comps ++ [[]].
Proof.
  induction comps as [|c comps IH]; [done|].
  intros [Hc Hcomps]%Forall_cons _.
  destruct (valid_name_inv _ Hc) as (_ & Hslash & _).
  destruct comps as [|d comps].
  - simpl. rewrite split_on_no_sep by done. split; [done|].
    by rewrite split_on_app.
  - destruct (IH Hcomps) as [IH1 IH2]; [done|].
    rewrite join_slash_cons by done. rewrite <- app_assoc.
    change ((ch_slash :: join_slash (d :: comps)) ++ [ch_slash])
      with (ch_slash :: (join_slash (d :: comps) ++ [ch_slash])).
    rewrite !split_on_app by done. by rewrite IH1, IH2.
Qed.

Lemma filter_valid_names (comps : list pystr) :
  Forall (λ n, valid_name n = true) comps →
  List.filter (λ x, negb (is_empty x) && negb (str_eqb x [ch_dot])) comps
  = comps.
Proof.
  induction comps as [|c comps IH]; [done|].
  intros [Hc Hcomps]%Forall_cons. simpl.
  unfold valid_name in Hc. apply andb_prop in Hc as [[H1 _]%andb_prop H3].
  by rewrite H1, H3, (IH Hcomps).
Qed.

Lemma path_tail_entry (comps : list pystr) (is_dir : bool) :
  Forall (λ n, valid_name n = true) comps → comps ≠ [] →
  path_tail (entry_path comps is_dir) = comps.
Proof.
  intros Hvalid Hne. unfold path_tail, entry_path.
  destruct (split_on_join comps Hvalid Hne) as [H1 H2].
  destruct is_dir.
  - rewrite H2, List.filter_app, filter_valid_names by done. simpl.
    by rewrite app_nil_r.
  - by rewrite app_nil_r, H1, filter_valid_names.
Qed.

Lemma join_slash_head (comps : list pystr) :
  Forall (λ n, valid_name n = true) comps → comps ≠ [] →
  ∃ c rest, join_slash comps = c :: rest ∧ c ≠ ch_slash.
Proof.
  destruct comps as [|n comps]; [done|]. intros [Hn _]%Forall_cons _.
  destruct (valid_name_inv _ Hn) as (Hne & Hslash & _).
  destruct n as [|c n]; [done|]. rewrite contains_cons in Hslash.
  apply orb_false_elim in Hslash as [Hc%N.eqb_neq _].
  destruct comps; simpl; eauto.
Qed.

Lemma path_root_entry (comps : list pystr) (is_dir : bool) :
  Forall (λ n, valid_name n = true) comps → comps ≠ [] →
  path_root (entry_path comps is_dir) = [] ∧
  startswith [ch_slash] (entry_path comps is_dir) = false.
Proof.
  intros Hvalid Hne. unfold entry_path.
  destruct (join_slash_head comps Hvalid Hne) as (c & rest & -> & Hc).
  assert (Hc' : N.eqb ch_slash c = false) by (by apply N.eqb_neq).
  split.
  - unfold path_root. simpl.
    destruct c as [|q]; [done|]. unfold ch_slash in Hc.
    repeat (destruct q as [q|q|]; try done).
  - change (N.eqb ch_slash c && true = false). by rewrite Hc'.
Qed.

Lemma path_parts_entry (comps : list pystr) (is_dir : bool) :
  Forall (λ n, valid_name n = true) comps → comps ≠ [] →
  path_parts (entry_path comps is_dir) = comps.
Proof.
  intros Hvalid Hne. unfold path_parts.
  rewrite (proj1 (path_root_entry comps is_dir Hvalid Hne)).
  by rewrite path_tail_entry.
Qed.

Lemma path_name_entry (comps : list pystr) (is_dir : bool) :
  Forall (λ n, valid_name n = true) comps → comps ≠ [] →
  path_name (entry_path comps is_dir) = List.last comps [].
Proof. intros. unfold path_name. by rewrite path_tail_entry. Qed.

(** ** The entries of the scan, by components *)

Lemma as_posix_root (rel : list pystr) :
  Forall (λ n, valid_name n = true) rel →
  str_eqb (as_posix rel) [ch_dot] = bool_decide (rel = []).
Proof.
  intros Hvalid. destruct rel as [|c rel]; [done|].
  rewrite (bool_decide_eq_false_2 (c :: rel = [])) by done.
  apply bool_decide_eq_false. intros Hdot.
  assert (Hparts : path_tail (entry_path (c :: rel) false) = c :: rel)
    by (by apply path_tail_entry).
  unfold entry_path in Hparts. rewrite app_nil_r in Hparts.
  change (as_posix (c :: rel)) with (join_slash (c :: rel)) in Hdot.
  by rewrite Hdot in Hparts.
Qed.

Lemma scan_file_path cfg rel filename p :
  Forall (λ n, valid_name n = true) rel →
  scan_file cfg rel filename = Some p →
  p = entry_path (rel ++ [filename]) false.
Proof.
  intros Hvalid. unfold scan_file, entry_path. rewrite app_nil_r.
  destruct (mem filename (IGNORE_FILES cfg)); [done|].
  destruct (mem _ (IGNORE_EXTENSIONS cfg)); [done|].
  destruct (existsb _ _); [done|].
  rewrite (as_posix_root _ Hvalid). case_bool_decide as Hrel.
  - subst rel. by intros [= <-].
  - intros [= <-]. by destruct rel.
Qed.

Lemma scan_dir_entries cfg rel dirnames filenames :
  Forall (λ n, valid_name n = true) rel →
  scan_dir cfg (rel, dirnames, filenames) =
  (λ e, (e.2, entry_path e.1 e.2)) <$>
    ((if bool_decide (rel = []) then [] else [(rel, true)])
     ++ omap (λ filename,
                match scan_file cfg rel filename with
                | Some _ => Some (rel ++ [filename], false)
                | None => None
                end) filenames).
Proof.
  intros Hvalid. unfold scan_dir. cbn [fst snd].
  rewrite fmap_app. f_equal.
  - rewrite (as_posix_root _ Hvalid). case_bool_decide as Hrel; [done|].
    simpl. unfold entry_path. by destruct rel.
  - induction filenames as [|f filenames IH]; [done|]. cbn [omap list_omap].
    destruct (scan_file cfg rel f) as [p|] eqn:Hp; simpl; [|exact IH].
    by rewrite IH, (scan_file_path _ _ _ _ Hvalid Hp).
Qed.

Lemma valid_tree_dir filenames subdirs :
  valid_tree (Dir filenames subdirs) = true →
  Forall (λ n, valid_name n = true) filenames ∧
  Forall (λ sub : pystr * fs_dir,
            valid_name sub.1 = true ∧ valid_tree sub.2 = true) subdirs.
Proof.
  cbn [valid_tree]. intros [Hf Hs]%andb_prop. split.
  - apply Forall_forall. intros n Hn%list_elem_of_In.
    rewrite forallb_forall in Hf. by apply Hf.
  - apply Forall_forall. intros sub Hsub%list_elem_of_In.
    rewrite forallb_forall in Hs. by apply andb_prop, Hs.
Qed.

(** The scan adds the paths of [tree_entries], in that order. *)
Lemma scan_entries_tree cfg d rel :
  Forall (λ n, valid_name n = true) rel →
  valid_tree d = true →
  flat_map (scan_dir cfg)
    (os_walk (λ n, negb (mem n (IGNORE_DIRS cfg))) rel d) =
  (λ e, (e.2, entry_path e.1 e.2)) <$> tree_entries cfg rel d.
Proof.
  revert rel. induction d as [|filenames subdirs IH] using fs_dir_nested_ind;
    intros rel Hrel Hd; [done|].
  destruct (valid_tree_dir _ _ Hd) as [_ Hsubs].
  cbn [os_walk tree_entries flat_map].
  rewrite app_assoc, fmap_app.
  rewrite <- (scan_dir_entries cfg rel (map fst subdirs)) by done. f_equal.
  clear Hd. induction subdirs as [|[name sub] subdirs IHsub]; [done|].
  apply Forall_cons in IH as [IHhead IHtail].
  apply Forall_cons in Hsubs as [[Hname Hsub] Hsubs].
  cbn [flat_map fst snd] in *. rewrite flat_map_app, fmap_app.
  rewrite (IHsub IHtail Hsubs). f_equal.
  destruct (negb (mem name (IGNORE_DIRS cfg))); [|done].
  apply IHhead; [|done]. apply Forall_app. by split; [|constructor].
Qed.

Lemma scan_entries_root cfg root :
  valid_tree root = true →
  scan_entries cfg root =
  (λ e, (e.2, entry_path e.1 e.2)) <$> tree_entries cfg [] root.
Proof. intros. by apply scan_entries_tree. Qed.

Lemma tree_entries_ok cfg d rel :
  Forall (λ n, valid_name n = true) rel →
  Forall (λ n, n ∉ IGNORE_DIRS cfg) rel →
  valid_tree d = true →
  Forall (entry_ok cfg) (tree_entries cfg rel d).
Proof.
  revert rel. induction d as [|filenames subdirs IH] using fs_dir_nested_ind;
    intros rel Hrel Hkept Hd; [constructor|].
  destruct (valid_tree_dir _ _ Hd) as [Hfiles Hsubs].
  cbn [tree_entries]. repeat apply Forall_app_2.
  - case_bool_decide; constructor; [|constructor]. by repeat split.
  - clear Hd. induction filenames as [|f filenames IHf]; [constructor|].
    apply Forall_cons in Hfiles as [Hf Hfiles]. cbn [omap list_omap].
    destruct (scan_file cfg rel f) as [p|] eqn:Hp; [|by apply IHf].
    constructor; [|by apply IHf]. unfold entry_ok. cbn [fst snd].
    rewrite removelast_last, last_last.
    split; [by destruct rel|]. split; [|split; [done|by rewrite Hp]].
    apply Forall_app. by split; [|constructor].
  - clear Hd. induction subdirs as [|[name sub] subdirs IHsub]; [constructor|].
    apply Forall_cons in IH as [IHhead IHtail].
    apply Forall_cons in Hsubs as [[Hname Hsub] Hsubs].
    cbn [flat_map fst snd] in *. apply Forall_app_2; [|by apply IHsub].
    destruct (mem name (IGNORE_DIRS cfg)) eqn:Hmem; [constructor|]. simpl.
    apply IHhead; [| |done].
    + apply Forall_app. by split; [|constructor].
    + apply Forall_app. split; [done|]. constructor; [|constructor].
      by apply mem_false.
Qed.

Lemma endswith_snoc (c d : N) (s : pystr) :
  endswith [c] (s ++ [d]) = N.eqb c d.
Proof.
  unfold endswith. rewrite rev_app_distr. simpl. apply andb_true_r.
Qed.

Lemma endswith2_snoc (c d e : N) (s : pystr) :
  endswith [c; c] (s ++ [d; e]) = N.eqb c e && N.eqb c d.
Proof.
  unfold endswith. rewrite rev_app_distr. simpl. by rewrite andb_true_r.
Qed.

Lemma valid_name_last (name : pystr) :
  valid_name name = true → ∃ s c, name = s ++ [c] ∧ c ≠ ch_slash.
Proof.
  intros (Hne & Hslash & _)%valid_name_inv.
  destruct (exists_last Hne) as (s & c & ->). exists s, c. split; [done|].
  intros ->. unfold contains in Hslash. rewrite existsb_app in Hslash.
  by rewrite orb_true_r in Hslash.
Qed.

Lemma join_slash_last (comps : list pystr) :
  Forall (λ n, valid_name n = true) comps → comps ≠ [] →
  ∃ s c, join_slash comps = s ++ [c] ∧ c ≠ ch_slash.
Proof.
  induction comps as [|n comps IH]; [done|].
  intros [Hn Hcomps]%Forall_cons _. destruct comps as [|m comps].
  - by apply valid_name_last.
  - destruct (IH Hcomps) as (s & c & Hs & Hc); [done|].
    rewrite join_slash_cons, Hs by done.
    exists (n ++ ch_slash :: s), c. by rewrite <- app_assoc.
Qed.

Lemma endswith_entry (comps : list pystr) (is_dir : bool) :
  Forall (λ n, valid_name n = true) comps → comps ≠ [] →
  endswith [ch_slash] (entry_path comps is_dir) = is_dir ∧
  endswith [ch_slash; ch_slash] (entry_path comps is_dir) = false.
Proof.
  intros Hvalid Hne. unfold entry_path.
  destruct (join_slash_last comps Hvalid Hne) as (s & c & -> & Hc).
  assert (Hc' : N.eqb ch_slash c = false) by (by apply N.eqb_neq).
  destruct is_dir.
  - rewrite <- app_assoc. rewrite (app_assoc s), endswith_snoc.
    split; [done|]. rewrite <- app_assoc.
    change ([c] ++ [ch_slash]) with [c; ch_slash].
    by rewrite endswith2_snoc, Hc', andb_false_r.
  - rewrite app_nil_r, endswith_snoc. split; [done|].
    unfold endswith. rewrite rev_app_distr.
    change (N.eqb ch_slash c && startswith [ch_slash] (rev s) = false).
    by rewrite Hc'.
Qed.

Lemma scan_entries_inv cfg root is_dir p :
  valid_tree root = true →
  (is_dir, p) ∈ scan_entries cfg root →
  ∃ comps, p = entry_path comps is_dir ∧ entry_ok cfg (comps, is_dir).
Proof.
  intros Hroot. rewrite (scan_entries_root _ _ Hroot).
  intros ([comps d] & [= -> ->] & Hin)%list_elem_of_fmap.
  exists comps. split; [done|].
  pose proof (tree_entries_ok cfg root [] (Forall_nil_2 _) (Forall_nil_2 _)
                Hroot) as Hok.
  rewrite Forall_forall in Hok. by apply Hok.
Qed.

Lemma elem_of_scan cfg root p :
  p ∈ scan_project_files_for_verify cfg root ↔
  ∃ is_dir, (is_dir, p) ∈ scan_entries cfg root.
Proof.
  unfold scan_project_files_for_verify. rewrite elem_of_list_to_set.
  rewrite list_elem_of_fmap. split.
  - intros ([is_dir q] & -> & Hin). by exists is_dir.
  - intros [is_dir Hin]. by exists (is_dir, p).
Qed.

(** C8. Every path the scan adds is relative and in normal form: it is the
    components of its path joined by single slashes, followed by exactly one
    slash when line 30 adds it for a directory and by none when line 39 or
    40 adds it for a file; it has at least one component, so the root is
    never among them. *)
Theorem scanned_paths_are_normalized cfg root :
  valid_tree root = true →
  (∀ (is_dir : bool) (p : pystr),
     (is_dir, p) ∈ scan_entries cfg root →
     p ∈ scan_project_files_for_verify cfg root ∧
     path_root p = [] ∧ startswith [ch_slash] p = false ∧
     path_parts p ≠ [] ∧
     p = join_slash (path_parts p) ++ (if is_dir then [ch_slash] else []) ∧
     endswith [ch_slash] p = is_dir ∧
     endswith [ch_slash; ch_slash] p = false) ∧
  (∀ p, p ∈ scan_project_files_for_verify cfg root →
        ∃ is_dir : bool, (is_dir, p) ∈ scan_entries cfg root) ∧
  ([] ∉ scan_project_files_for_verify cfg root) ∧
  ([ch_dot] ∉ scan_project_files_for_verify cfg root) ∧
  ([ch_dot; ch_slash] ∉ scan_project_files_for_verify cfg root) ∧
  ([ch_slash] ∉ scan_project_files_for_verify cfg root).
Proof.
  intros Hroot.
  assert (Hentry : ∀ (is_dir : bool) (p : pystr),
     (is_dir, p) ∈ scan_entries cfg root →
     p ∈ scan_project_files_for_verify cfg root ∧
     path_root p = [] ∧ startswith [ch_slash] p = false ∧
     path_parts p ≠ [] ∧
     p = join_slash (path_parts p) ++ (if is_dir then [ch_slash] else []) ∧
     endswith [ch_slash] p = is_dir ∧
     endswith [ch_slash; ch_slash] p = false).
  { intros is_dir p Hin.
    destruct (scan_entries_inv _ _ _ _ Hroot Hin)
      as (comps & -> & Hne & Hvalid & _). cbn [fst] in Hne, Hvalid.
    split; [apply elem_of_scan; by exists is_dir|].
    destruct (path_root_entry comps is_dir Hvalid Hne) as [Hr Hs].
    destruct (endswith_entry comps is_dir Hvalid Hne) as [He He2].
    rewrite path_parts_entry by done. by repeat split. }
  split; [exact Hentry|]. split; [intros p; by apply elem_of_scan|].
  assert (Hparts : ∀ p, p ∈ scan_project_files_for_verify cfg root →
                        path_root p = [] ∧ path_parts p ≠ []).
  { intros p [is_dir Hin]%elem_of_scan.
    destruct (Hentry _ _ Hin) as (_ & ? & _ & ? & _). by split. }
  repeat split; intros [Hr Hp]%Hparts; by vm_compute in Hr, Hp.
Qed.

(** C1, as the script has it. No documented path has a component in
    [IGNORE_DIRS]. Of a scanned path, no directory has a name in
    [IGNORE_DIRS]: no component of a directory entry and, for a file entry,
    no component but the file's own name, to which the directory rule is not
    applied. *)
Theorem ignored_directories_are_left_out cfg :
  (∀ content docs p part,
     extract_from_content cfg content = Some docs →
     p ∈ docs → part ∈ path_parts p → part ∉ IGNORE_DIRS cfg) ∧
  (∀ root (is_dir : bool) (p part : pystr),
     valid_tree root = true →
     (is_dir, p) ∈ scan_entries cfg root →
     part ∈ (if is_dir then path_parts p else removelast (path_parts p)) →
     part ∉ IGNORE_DIRS cfg).
Proof.
  split.
  - intros content docs p part Hdocs Hp.
    pose proof (extract_final_keep _ _ _ _ Hdocs Hp) as Hkeep.
    unfold final_keep in Hkeep.
    apply andb_prop in Hkeep as [[_ Hparts%negb_true_iff]%andb_prop _].
    by apply existsb_mem_false.
  - intros root is_dir p part Hroot Hin.
    destruct (scan_entries_inv _ _ _ _ Hroot Hin)
      as (comps & -> & Hne & Hvalid & Hdirs & _). cbn [fst snd] in *.
    rewrite path_parts_entry by done. rewrite Forall_forall in Hdirs.
    apply Hdirs.
Qed.

(** ** The line of an entry *)

Lemma contains_app (c : N) (s t : pystr) :
  contains c (s ++ t) = contains c s || contains c t.
Proof. apply existsb_app. Qed.

Lemma plain_name_inv cfg name :
  plain_name cfg name = true →
  contains ch_star name = false ∧ contains ch_hash name = false ∧
  contains ch_backtick name = false ∧ existsb is_linebreak name = false ∧
  (∃ c t, name = c :: t ∧ is_decoration c = false) ∧
  (∃ s c, name = s ++ [c] ∧ isspace c = false) ∧
  (name ∉ IGNORE_DIRS cfg) ∧ (name ∉ IGNORE_FILES cfg).
Proof.
  unfold plain_name. intros H.
  repeat (apply andb_prop in H as [H ?]).
  repeat match goal with
         | Hn : negb _ = true |- _ => apply negb_true_iff in Hn
         end.
  repeat split; try done; try (by apply mem_false).
  - destruct name as [|c t]; [done|]. by exists c, t.
  - destruct name as [|c0 t] using rev_ind; [done|].
    rewrite rev_app_distr in *. by exists t, c0.
Qed.

Lemma decoration_not_space (c : N) : is_decoration c = false → isspace c = false.
Proof.
  unfold is_decoration. intros H. destruct (isspace c); [|done].
  by rewrite !orb_true_r in H.
Qed.

Lemma starts_comment_no_hash (s : pystr) :
  contains ch_hash s = false → starts_comment s = false.
Proof.
  unfold starts_comment. induction s as [|c s IH]; [done|].
  rewrite contains_cons. intros [Hc Hs]%orb_false_elim. simpl.
  destruct (isspace c); [by apply IH|]. by rewrite N.eqb_sym.
Qed.

Lemma lazy_node_no_hash (s : pystr) :
  contains ch_hash s = false → lazy_node s = s.
Proof.
  induction s as [|c s IH]; [done|]. intros Hs.
  cbn [lazy_node]. rewrite (starts_comment_no_hash _ Hs).
  rewrite contains_cons in Hs. apply orb_false_elim in Hs as [_ Hs].
  by rewrite (IH Hs).
Qed.

Lemma existsb_replicate (f : N → bool) (n : nat) (c : N) :
  f c = false → existsb f (replicate n c) = false.
Proof. intros Hc. induction n as [|n IH]; [done|]. simpl. by rewrite Hc. Qed.

Lemma forallb_replicate (f : N → bool) (n : nat) (c : N) :
  f c = true → forallb f (replicate n c) = true.
Proof. intros Hc. induction n as [|n IH]; [done|]. simpl. by rewrite Hc. Qed.

Lemma rstrip_slash_snoc (s : pystr) (c : N) :
  c ≠ ch_slash → rstrip_slash (s ++ [c]) = s ++ [c].
Proof.
  intros Hc. unfold rstrip_slash. rewrite rev_app_distr.
  change (rev [c] ++ rev s) with (c :: rev s).
  rewrite drop_while_stop by (apply N.eqb_neq; congruence).
  change (c :: rev s) with (rev [c] ++ rev s).
  by rewrite <- rev_app_distr, rev_involutive.
Qed.

Lemma rstrip_slash_slash (s : pystr) :
  rstrip_slash (s ++ [ch_slash]) = rstrip_slash s.
Proof. unfold rstrip_slash. by rewrite rev_app_distr. Qed.

(** ** Tokens that begin with a slash *)

Lemma record_entry_docs cfg indent node cur stack1 stack2 docs :
  (record_entry cfg indent node cur (stack1, docs)).2 =
  (record_entry cfg indent node cur (stack2, docs)).2.
Proof.
  unfold record_entry.
  destruct (mem (path_name (rstrip_slash cur)) (IGNORE_DIRS cfg)); [done|].
  destruct (negb (endswith [ch_slash] node) && _); [done|].
  by destruct (mem (path_name (rstrip_slash cur)) (IGNORE_FILES cfg)).
Qed.

(** What [record_entry] can do to the documented set and to the stack. *)
Lemma record_entry_cases cfg indent node cur stack docs :
  let clean_path := rstrip_slash cur in
  let final_path :=
    if endswith [ch_slash] node then clean_path ++ [ch_slash]
    else clean_path in
  ((record_entry cfg indent node cur (stack, docs)).2 = docs ∨
   (record_entry cfg indent node cur (stack, docs)).2
   = {[ final_path ]} ∪ docs) ∧
  ((record_entry cfg indent node cur (stack, docs)).1 = stack ∨
   (record_entry cfg indent node cur (stack, docs)).1
   = (clean_path, indent) :: stack).
Proof.
  cbv zeta. unfold record_entry.
  destruct (mem (path_name (rstrip_slash cur)) (IGNORE_DIRS cfg));
    [by split; left|].
  destruct (negb (endswith [ch_slash] node) && _); [by split; left|].
  destruct (mem (path_name (rstrip_slash cur)) (IGNORE_FILES cfg));
    [by split; left|].
  cbn [fst snd negb andb]. rewrite andb_true_r. split.
  - destruct (negb (existsb _ _)); [by right|by left].
  - destruct (endswith [ch_slash] node); [by right|by left].
Qed.

(** The entry of a token that begins with a slash begins with a slash. *)
Lemma rooted_entry_is_rooted (token : pystr) :
  startswith [ch_slash] token = true →
  startswith [ch_slash]
    (if endswith [ch_slash] token then rstrip_slash token ++ [ch_slash]
     else rstrip_slash token) = true.
Proof.
  intros [rest ->]%startswith_inv.
  change ([ch_slash] ++ rest) with (ch_slash :: rest).
  assert (Hdir : startswith [ch_slash]
                   (rstrip_slash (ch_slash :: rest) ++ [ch_slash]) = true).
  { induction rest as [|d rest IH] using rev_ind; [done|].
    change (ch_slash :: rest ++ [d]) with ((ch_slash :: rest) ++ [d]).
    destruct (decide (d = ch_slash)) as [->|Hd].
    - by rewrite rstrip_slash_slash.
    - by rewrite rstrip_slash_snoc. }
  destruct (endswith [ch_slash] (ch_slash :: rest)) eqn:Hend; [done|].
  clear Hdir. destruct rest as [|d rest _] using rev_ind; [done|].
  change (ch_slash :: rest ++ [d]) with ((ch_slash :: rest) ++ [d]) in *.
  rewrite endswith_snoc in Hend. apply N.eqb_neq in Hend.
  by rewrite rstrip_slash_snoc by congruence.
Qed.

(** C10. A node token that begins with [/] is never joined to the parent on
    the stack. Whatever the parent, the path reconstructed on lines 73 to 77
    is the token itself (or the line is dropped by line 76), and the line is
    processed with that path: on the stack unwound to the line's
    indentation, [process_line] records the entry of the token itself. So
    the only path the line can add is the token without its final slashes
    (with one slash for a directory), a path that begins with [/]; the only
    pair it can push holds the token without its final slashes; and the
    documented set after the line is the one an empty stack would give. *)
Theorem rooted_token_is_not_joined cfg path_stack docs line :
  startswith [ch_slash] (node_token line) = true →
  let token := node_token line in
  let below := unwind (indentation line) path_stack in
  let entry :=
    if endswith [ch_slash] token then rstrip_slash token ++ [ch_slash]
    else rstrip_slash token in
  (∀ parent_path,
     current_path_of cfg parent_path token =
     if mem (rstrip_slash token) (IGNORE_DIRS cfg)
        || mem (rstrip_slash token) (IGNORE_FILES cfg)
     then None else Some token) ∧
  process_line cfg (path_stack, docs) line =
    (if skipped_early cfg path_stack line then (path_stack, docs)
     else if mem (rstrip_slash token) (IGNORE_DIRS cfg)
             || mem (rstrip_slash token) (IGNORE_FILES cfg)
          then (below, docs)
          else record_entry cfg (indentation line) token token
                 (below, docs)) ∧
  (∀ p, p ∈ (process_line cfg (path_stack, docs) line).2 →
        p ∉ docs → p = entry) ∧
  startswith [ch_slash] entry = true ∧
  ((process_line cfg (path_stack, docs) line).1 = path_stack ∨
   (process_line cfg (path_stack, docs) line).1 = below ∨
   (process_line cfg (path_stack, docs) line).1
   = (rstrip_slash token, indentation line) :: below) ∧
  (process_line cfg (path_stack, docs) line).2 =
  (process_line cfg ([], docs) line).2.
Proof.
  intros Hslash. cbv zeta.
  assert (Hcur : ∀ parent_path,
     current_path_of cfg parent_path (node_token line) =
     if mem (rstrip_slash (node_token line)) (IGNORE_DIRS cfg)
        || mem (rstrip_slash (node_token line)) (IGNORE_FILES cfg)
     then None else Some (node_token line)).
  { intros parent_path. unfold current_path_of. rewrite Hslash.
    by rewrite andb_false_r. }
  assert (Hline : ∀ stack,
    process_line cfg (stack, docs) line =
    (if skipped_early cfg stack line then (stack, docs)
     else if mem (rstrip_slash (node_token line)) (IGNORE_DIRS cfg)
             || mem (rstrip_slash (node_token line)) (IGNORE_FILES cfg)
          then (unwind (indentation line) stack, docs)
          else record_entry cfg (indentation line) (node_token line)
                 (node_token line) (unwind (indentation line) stack, docs))).
  { intros stack. rewrite process_line_unfold. cbv zeta. rewrite Hcur.
    by destruct (mem _ (IGNORE_DIRS cfg) || mem _ (IGNORE_FILES cfg)). }
  destruct (record_entry_cases cfg (indentation line) (node_token line)
              (node_token line) (unwind (indentation line) path_stack) docs)
    as [Hdocs Hstack].
  split; [exact Hcur|]. split; [apply Hline|].
  split; [|split; [by apply rooted_entry_is_rooted|split]].
  - intros p. rewrite Hline.
    destruct (skipped_early cfg path_stack line); [done|].
    destruct (mem _ (IGNORE_DIRS cfg) || mem _ (IGNORE_FILES cfg)); [done|].
    destruct Hdocs as [->| ->]; [done|].
    intros [->%elem_of_singleton|Hp]%elem_of_union Hnew; done.
  - rewrite Hline.
    destruct (skipped_early cfg path_stack line); [by left|].
    destruct (mem _ (IGNORE_DIRS cfg) || mem _ (IGNORE_FILES cfg));
      [by right; left|].
    destruct Hstack as [->| ->]; [by right; left|by right; right].
  - rewrite !Hline. unfold skipped_early.
    rewrite (bool_decide_eq_true_2 (@nil (pystr * nat) = [])) by done.
    destruct (is_empty (strip line) || str_eqb (strip line) [ch_dot]),
      (is_empty (node_token line)), (contains ch_star (node_token line)),
      (mem (rstrip_slash (node_token line)) (IGNORE_DIRS cfg)),
      (mem (rstrip_slash (node_token line)) (IGNORE_FILES cfg)),
      (bool_decide (path_stack = [])),
      (endswith [ch_slash] (node_token line));
      try reflexivity; apply record_entry_docs.
Qed.

(** What the parser reads on the line of an entry. *)
Lemma entry_line_read cfg (n : nat) (name : pystr) (is_dir : bool) :
  valid_name name = true → plain_name cfg name = true →
  let line := replicate n ch_space ++ entry_token name is_dir in
  strip line = entry_token name is_dir ∧
  node_token line = entry_token name is_dir ∧
  indentation line = n ∧
  entry_token name is_dir ≠ [] ∧ entry_token name is_dir ≠ [ch_dot] ∧
  contains ch_star (entry_token name is_dir) = false ∧
  rstrip_slash (entry_token name is_dir) = name ∧
  endswith [ch_slash] (entry_token name is_dir) = is_dir ∧
  startswith [ch_slash] (entry_token name is_dir) = false.
Proof.
  intros Hvalid Hplain. cbv zeta.
  destruct (plain_name_inv _ _ Hplain)
    as (Hstar & Hhash & _ & _ & (c & t & Hhead & Hdeco) & _ & _ & _).
  destruct (valid_name_inv _ Hvalid) as (Hne & Hslash & Hdot).
  destruct (valid_name_last _ Hvalid) as (s & d & Hlast & Hd).
  assert (Hspaces : forallb isspace (replicate n ch_space) = true)
    by (by apply forallb_replicate).
  assert (Htok : ∃ s' d', entry_token name is_dir = s' ++ [d'] ∧
                          isspace d' = false).
  { destruct (plain_name_inv _ _ Hplain)
      as (_ & _ & _ & _ & _ & (s' & d' & Hs' & Hd') & _).
    unfold entry_token. destruct is_dir.
    - by exists name, ch_slash.
    - exists s', d'. by rewrite app_nil_r. }
  destruct Htok as (s' & d' & Htok & Hd').
  assert (Hstrip : strip (replicate n ch_space ++ entry_token name is_dir)
                   = entry_token name is_dir).
  { unfold strip, lstrip. rewrite drop_while_all by done.
    unfold entry_token at 1. rewrite Hhead at 1.
    change ((c :: t) ++ ?r) with (c :: t ++ r).
    rewrite drop_while_stop by (by apply decoration_not_space).
    change (c :: t ++ ?r) with ((c :: t) ++ r). rewrite <- Hhead.
    fold (entry_token name is_dir). rewrite Htok. by apply rstrip_snoc. }
  assert (Hhash' : contains ch_hash (entry_token name is_dir) = false).
  { unfold entry_token. rewrite contains_app, Hhash. by destruct is_dir. }
  assert (Hmatch : match_line (replicate n ch_space ++ entry_token name is_dir)
                   = (replicate n ch_space, entry_token name is_dir)).
  { unfold match_line.
    rewrite drop_while_all by (by apply space_is_decoration).
    unfold entry_token. rewrite Hhead.
    change ((c :: t) ++ ?r) with (c :: t ++ r).
    rewrite take_while_all, drop_while_stop
      by (done || by apply space_is_decoration).
    change (c :: t ++ ?r) with ((c :: t) ++ r). rewrite <- Hhead.
    fold (entry_token name is_dir). by rewrite lazy_node_no_hash. }
  split; [done|]. split.
  { unfold node_token. rewrite Hmatch. cbn [snd].
    rewrite <- Hstrip at 2. unfold strip, lstrip.
    by rewrite drop_while_all. }
  split; [unfold indentation; rewrite Hmatch; apply length_replicate|].
  split; [by rewrite Htok; destruct s'|].
  split.
  { unfold entry_token. destruct is_dir.
    - intros Heq. apply (f_equal length) in Heq.
      rewrite length_app in Heq. simpl in Heq. destruct name; [done|].
      simpl in Heq. lia.
    - by rewrite app_nil_r. }
  split.
  { unfold entry_token. rewrite contains_app, Hstar. by destruct is_dir. }
  split.
  { unfold entry_token. destruct is_dir.
    - rewrite rstrip_slash_slash, Hlast. by apply rstrip_slash_snoc.
    - rewrite app_nil_r, Hlast. by apply rstrip_slash_snoc. }
  split.
  { unfold entry_token. destruct is_dir.
    - by rewrite endswith_snoc.
    - rewrite app_nil_r, Hlast, endswith_snoc. apply N.eqb_neq. congruence. }
  unfold entry_token. rewrite Hhead in Hslash |- *.
  rewrite contains_cons in Hslash. apply orb_false_elim in Hslash as [Hc _].
  change (N.eqb ch_slash c && true = false). by rewrite Hc.
Qed.

(** ** The stack along a diagram of entries *)

Lemma stack_of_snoc unit comps name :
  stack_of unit (comps ++ [name]) =
  (join_slash (comps ++ [name]), unit * length (comps ++ [name]))
  :: stack_of unit comps.
Proof.
  unfold stack_of. rewrite rev_app_distr. cbn [rev app stack_of_rev].
  rewrite rev_involutive. do 2 f_equal.
  rewrite length_app. simpl. rewrite length_rev. lia.
Qed.

Lemma unwind_stack_of unit par ext :
  1 ≤ unit →
  unwind (unit * S (length par)) (stack_of unit (par ++ ext)) =
  stack_of unit par.
Proof.
  intros Hunit. induction ext as [|x ext IH] using rev_ind.
  - rewrite app_nil_r. destruct par as [|y par _] using rev_ind; [done|].
    rewrite stack_of_snoc. cbn [unwind].
    destruct (_ <=? _) eqn:Hle; [|done].
    apply Nat.leb_le in Hle. nia.
  - rewrite app_assoc, stack_of_snoc. cbn [unwind].
    destruct (_ <=? _) eqn:Hle; [exact IH|].
    apply Nat.leb_gt in Hle. rewrite !length_app in Hle. simpl in Hle. nia.
Qed.

Lemma parent_of_stack_of unit par :
  parent_of (stack_of unit par) =
  match par with [] => [] | _ => join_slash par end.
Proof.
  destruct par as [|y par _] using rev_ind; [done|].
  rewrite stack_of_snoc. simpl. by destruct (par ++ [y]) eqn:Hpar.
Qed.

Lemma rstrip_slash_entry (comps : list pystr) (is_dir : bool) :
  Forall (λ n, valid_name n = true) comps → comps ≠ [] →
  rstrip_slash (entry_path comps is_dir) = join_slash comps.
Proof.
  intros Hvalid Hne. unfold entry_path.
  destruct (join_slash_last comps Hvalid Hne) as (s & c & -> & Hc).
  destruct is_dir.
  - rewrite rstrip_slash_slash. by apply rstrip_slash_snoc.
  - rewrite app_nil_r. by apply rstrip_slash_snoc.
Qed.

Lemma diagram_line_entry unit (comps : list pystr) (is_dir : bool) :
  Forall (λ n, valid_name n = true) comps → comps ≠ [] →
  diagram_line unit (entry_path comps is_dir) =
  replicate (unit * length comps) ch_space
  ++ entry_token (List.last comps []) is_dir.
Proof.
  intros Hvalid Hne. unfold diagram_line, entry_token.
  rewrite path_parts_entry, path_name_entry by done.
  by rewrite (proj1 (endswith_entry comps is_dir Hvalid Hne)).
Qed.

Lemma existsb_mem_dirs (dirs : gset pystr) (comps : list pystr) :
  Forall (λ n, n ∉ dirs) comps →
  existsb (λ part, mem part dirs) comps = false.
Proof.
  induction 1 as [|c comps Hc _ IH]; [done|]. simpl.
  by rewrite IH, (bool_decide_eq_false_2 _ Hc : mem c dirs = false).
Qed.

(** The line of an entry whose parent directory is open documents the path
    of the entry and leaves its directory open. *)
Lemma process_entry_line cfg unit o docs (comps : list pystr) is_dir :
  1 ≤ unit →
  comps ≠ [] →
  Forall (λ n, valid_name n = true) comps →
  plain_name cfg (List.last comps []) = true →
  Forall (λ n, n ∉ IGNORE_DIRS cfg) comps →
  (is_dir = false →
   lower (name_suffix (List.last comps [])) ∉ IGNORE_EXTENSIONS cfg) →
  removelast comps `prefix_of` o →
  process_line cfg (stack_of unit o, docs)
    (diagram_line unit (entry_path comps is_dir)) =
  (stack_of unit (if is_dir then comps else removelast comps),
   {[ entry_path comps is_dir ]} ∪ docs).
Proof.
  intros Hunit Hne Hvalid Hplain Hdirs Hext [ext ->].
  rewrite diagram_line_entry by done.
  set (name := List.last comps []) in *. set (par := removelast comps).
  assert (Hcomps : comps = par ++ [name]) by (by apply app_removelast_last).
  assert (Hname : valid_name name = true).
  { rewrite Forall_forall in Hvalid. apply Hvalid. rewrite Hcomps.
    apply elem_of_app. right. by apply list_elem_of_singleton. }
  destruct (entry_line_read cfg (unit * length comps) name is_dir Hname Hplain)
    as (Hstrip & Hnode & Hind & Htok & Hdot & Hstar & Hrstrip & Hends & Hstarts).
  destruct (plain_name_inv _ _ Hplain) as (_ & _ & _ & _ & _ & _ & HnD & HnF).
  apply (bool_decide_eq_false_2 _) in HnD, HnF.
  change (mem name (IGNORE_DIRS cfg) = false) in HnD.
  change (mem name (IGNORE_FILES cfg) = false) in HnF.
  rewrite process_line_unfold. unfold skipped_early.
  rewrite Hstrip, Hnode, Hind, Hstar, Hrstrip, HnD, HnF, Hends.
  assert (Hempty : is_empty (entry_token name is_dir) = false)
    by (by destruct (entry_token name is_dir)).
  rewrite Hempty, (bool_decide_eq_false_2 _ Hdot : str_eqb _ _ = false).
  rewrite andb_false_r. cbn [orb andb]. cbv zeta.
  assert (Hlen : length comps = S (length par)).
  { rewrite Hcomps at 1. rewrite length_app. simpl. lia. }
  rewrite Hlen, unwind_stack_of by done. rewrite <- Hlen.
  rewrite parent_of_stack_of.
  assert (Hcur : current_path_of cfg
                   match par with [] => [] | _ => join_slash par end
                   (entry_token name is_dir)
                 = Some (entry_path comps is_dir)).
  { unfold current_path_of. rewrite Hstarts, Hrstrip, HnD, HnF.
    destruct par as [|x par'] eqn:Hpar.
    - simpl. by rewrite Hcomps.
    - rewrite <- Hpar in *.
      assert (Hvpar : Forall (λ n, valid_name n = true) par).
      { rewrite Hcomps in Hvalid. by apply Forall_app in Hvalid as [? _]. }
      destruct (join_slash_head par Hvpar) as (c & rest & Hjoin & _);
        [by rewrite Hpar|].
      rewrite Hjoin at 1. cbn [is_empty negb andb].
      unfold entry_path, entry_token. rewrite Hcomps at 1.
      rewrite join_slash_snoc by (by rewrite Hpar).
      by rewrite <- app_assoc. }
  rewrite Hcur. unfold record_entry.
  rewrite rstrip_slash_entry by done.
  assert (Hpname : path_name (join_slash comps) = name).
  { transitivity (path_name (entry_path comps false));
      [unfold entry_path; by rewrite app_nil_r|by apply path_name_entry]. }
  unfold path_suffix. rewrite Hpname, HnD, HnF, Hends.
  assert (Hsuffix : negb is_dir
                    && mem (lower (name_suffix name)) (IGNORE_EXTENSIONS cfg)
                    = false).
  { destruct is_dir; [done|]. simpl. apply bool_decide_eq_false_2.
    by apply Hext. }
  rewrite Hsuffix.
  assert (Hfinal : (if is_dir then join_slash comps ++ [ch_slash]
                    else join_slash comps) = entry_path comps is_dir).
  { unfold entry_path. destruct is_dir; [done|]. by rewrite app_nil_r. }
  rewrite Hfinal, path_parts_entry, existsb_mem_dirs by done.
  cbn [negb andb]. rewrite andb_true_r. f_equal.
  destruct is_dir; [|done]. rewrite Hcomps at 3.
  by rewrite stack_of_snoc, <- Hcomps.
Qed.

(** ** The order of the scan *)

Lemma chain_app o es1 es2 :
  chain o (es1 ++ es2) ↔ chain o es1 ∧ chain (open_after o es1) es2.
Proof.
  revert o. induction es1 as [|e es1 IH]; intros o; simpl; [tauto|].
  rewrite IH. unfold open_after. simpl. tauto.
Qed.

Lemma keeps_open_nil rel : keeps_open rel [].
Proof. by intros o Ho. Qed.

Lemma keeps_open_app rel es1 es2 :
  keeps_open rel es1 → keeps_open rel es2 → keeps_open rel (es1 ++ es2).
Proof.
  intros H1 H2 o Ho. destruct (H1 o Ho) as [Hc1 Ho1].
  destruct (H2 _ Ho1) as [Hc2 Ho2]. split.
  - apply chain_app. by split.
  - unfold open_after in *. by rewrite foldl_app.
Qed.

Lemma removelast_prefix (rel : list pystr) : removelast rel `prefix_of` rel.
Proof.
  destruct rel as [|c rel]; [done|].
  exists [List.last (c :: rel) []]. by apply app_removelast_last.
Qed.

Lemma file_entries_keep_open cfg rel filenames :
  keeps_open rel
    (omap (λ filename,
             match scan_file cfg rel filename with
             | Some _ => Some (rel ++ [filename], false)
             | None => None
             end) filenames).
Proof.
  induction filenames as [|f filenames IH]; [apply keeps_open_nil|].
  cbn [omap list_omap]. destruct (scan_file cfg rel f); [|exact IH].
  apply (keeps_open_app rel [_] _); [|exact IH].
  intros o Ho. unfold open_after, open_path. simpl.
  by rewrite removelast_last.
Qed.

(** The scan adds its entries in diagram order. *)
Lemma tree_entries_keep_open cfg d rel :
  keeps_open (removelast rel) (tree_entries cfg rel d).
Proof.
  revert rel. induction d as [|filenames subdirs IH] using fs_dir_nested_ind;
    intros rel; [apply keeps_open_nil|].
  cbn [tree_entries]. intros o Ho.
  set (first := if bool_decide (rel = []) then [] else [(rel, true)]).
  assert (Hfirst : chain o first ∧ rel `prefix_of` open_after o first).
  { unfold first. case_bool_decide as Hrel.
    - subst rel. split; [done|]. apply prefix_nil.
    - by repeat split. }
  destruct Hfirst as [Hc1 Ho1].
  assert (Hrest : keeps_open rel
    (omap (λ filename,
             match scan_file cfg rel filename with
             | Some _ => Some (rel ++ [filename], false)
             | None => None
             end) filenames
     ++ flat_map (λ sub : pystr * fs_dir,
                    if negb (mem (fst sub) (IGNORE_DIRS cfg))
                    then tree_entries cfg (rel ++ [fst sub]) (snd sub)
                    else []) subdirs)).
  { apply keeps_open_app; [apply file_entries_keep_open|].
    induction subdirs as [|[name sub] subdirs IHsub]; [apply keeps_open_nil|].
    apply Forall_cons in IH as [IHhead IHtail]. cbn [flat_map fst snd] in *.
    apply keeps_open_app; [|by apply IHsub].
    destruct (negb (mem name (IGNORE_DIRS cfg))); [|apply keeps_open_nil].
    specialize (IHhead (rel ++ [name])). by rewrite removelast_last in IHhead. }
  destruct (Hrest _ Ho1) as [Hc2 Ho2]. split.
  - apply chain_app. by split.
  - unfold open_after in *. rewrite foldl_app.
    etrans; [apply removelast_prefix|exact Ho2].
Qed.

(** The lines of entries in diagram order document the paths of the
    entries. *)
Lemma parse_entry_lines cfg unit es :
  1 ≤ unit →
  ∀ o docs,
    chain o es → Forall (entry_fit cfg) es →
    foldl (process_line cfg) (stack_of unit o, docs)
      ((λ e, diagram_line unit (entry_path e.1 e.2)) <$> es) =
    (stack_of unit (open_after o es),
     list_to_set ((λ e, entry_path e.1 e.2) <$> es) ∪ docs).
Proof.
  intros Hunit. induction es as [|[comps is_dir] es IH]; intros o docs.
  - intros _ _. simpl. f_equal. by rewrite (left_id_L ∅ (∪)).
  - intros [Hpre Hchain] [Hfit Hfits]%Forall_cons.
    destruct Hfit as (Hne & Hvalid & Hplain & Hdirs & Hext).
    cbn [fst snd] in *. cbn [fmap list_fmap foldl].
    rewrite process_entry_line by done.
    change (if is_dir then comps else removelast comps)
      with (open_path (comps, is_dir)).
    rewrite (IH _ _ Hchain Hfits). f_equal.
    cbn [list_to_set foldr]. rewrite (assoc_L (∪)). f_equal.
    apply (comm_L (∪)).
Qed.

(** ** The text of a diagram *)

Lemma text_of_cons first l lines :
  text_of first (l :: lines) = text_of (first ++ ch_newline :: l) lines.
Proof. unfold text_of. simpl. by rewrite <- app_assoc. Qed.

Lemma block_text first lines :
  first ++ ch_newline :: concat (map (λ l, l ++ [ch_newline]) lines) =
  text_of first lines ++ [ch_newline].
Proof.
  revert first. induction lines as [|l lines IH]; intros first.
  - unfold text_of. simpl. by rewrite app_nil_r.
  - rewrite text_of_cons, <- IH. simpl. by rewrite <- !app_assoc.
Qed.

Lemma text_of_last first lines :
  (∃ s d, first = s ++ [d] ∧ isspace d = false) →
  Forall tidy_line lines →
  ∃ s d, text_of first lines = s ++ [d] ∧ isspace d = false.
Proof.
  revert first. induction lines as [|l lines IH]; intros first Hfirst.
  - intros _. unfold text_of. simpl. by rewrite app_nil_r.
  - intros [(_ & _ & s & d & -> & Hd) Hlines]%Forall_cons.
    rewrite text_of_cons. apply IH; [|done].
    exists (first ++ ch_newline :: s), d. by rewrite <- app_assoc.
Qed.

Lemma strip_block lines :
  Forall tidy_line lines →
  strip (text_of [ch_dot] lines ++ [ch_newline]) = text_of [ch_dot] lines.
Proof.
  intros Hlines. unfold strip, lstrip.
  change (text_of [ch_dot] lines ++ [ch_newline])
    with (ch_dot :: (concat (map (λ l, ch_newline :: l) lines)
                     ++ [ch_newline])).
  rewrite drop_while_stop by done.
  change (ch_dot :: (concat (map (λ l, ch_newline :: l) lines)
                     ++ [ch_newline]))
    with (text_of [ch_dot] lines ++ [ch_newline]).
  rewrite rstrip_app_space by done.
  destruct (text_of_last [ch_dot] lines) as (s & d & -> & Hd);
    [by exists [], ch_dot|done|].
  by apply rstrip_snoc.
Qed.

Lemma splitlines_from_app cur l rest :
  existsb is_linebreak l = false →
  splitlines_from cur (l ++ rest) = splitlines_from (rev l ++ cur) rest.
Proof.
  revert cur. induction l as [|c l IH]; intros cur; [done|]. simpl.
  intros [Hc Hl]%orb_false_elim. rewrite Hc, (IH _ Hl).
  by rewrite <- app_assoc.
Qed.

Lemma splitlines_text cur first lines :
  first ≠ [] →
  existsb is_linebreak first = false →
  Forall tidy_line lines →
  splitlines_from cur (text_of first lines) = (rev cur ++ first) :: lines.
Proof.
  revert cur first. induction lines as [|l lines IH]; intros cur first Hne Hbr.
  - intros _. unfold text_of. simpl concat.
    rewrite splitlines_from_app by done. simpl.
    destruct (rev first ++ cur) eqn:Hcur.
    + apply app_eq_nil in Hcur as [Hrev _].
      apply (f_equal (@rev N)) in Hrev. by rewrite rev_involutive in Hrev.
    + cbn [is_empty]. rewrite <- Hcur.
      by rewrite rev_app_distr, rev_involutive.
  - intros [(Hl & _ & s & d & Hsd & _) Hlines]%Forall_cons.
    assert (Htext : text_of first (l :: lines)
                    = first ++ ch_newline :: text_of l lines) by done.
    rewrite Htext, splitlines_from_app by done.
    assert (Hnext : ∃ c t, text_of l lines = c :: t).
    { unfold text_of. rewrite Hsd. destruct s; simpl; eauto. }
    destruct Hnext as (c & t & Hct).
    cbn [splitlines_from]. change (is_linebreak ch_newline) with true.
    cbv iota. rewrite Hct.
    change (N.eqb ch_newline 13 && N.eqb c 10) with false. cbv iota.
    rewrite <- Hct, rev_app_distr, rev_involutive. f_equal.
    apply (IH [] l); [by rewrite Hsd; destruct s|done|done].
Qed.

Lemma text_of_no_backtick first lines :
  contains ch_backtick first = false →
  Forall tidy_line lines →
  contains ch_backtick (text_of first lines ++ [ch_newline]) = false.
Proof.
  intros Hfirst Hlines. rewrite contains_app.
  apply orb_false_intro; [|done]. revert first Hfirst.
  induction Hlines as [|l lines (_ & Hl & _) _ IH]; intros first Hfirst.
  - unfold text_of. simpl. by rewrite app_nil_r.
  - rewrite text_of_cons. apply IH. rewrite contains_app, Hfirst.
    by rewrite contains_cons, Hl.
Qed.

(** [re.search] on a text that is a fenced block without backticks. *)
Lemma search_code_block_fenced body :
  contains ch_backtick body = false →
  search_code_block (fence ++ ch_newline :: body ++ fence) = Some body.
Proof.
  intros Hbody. apply search_code_block_matched.
  unfold match_code_block. rewrite startswith_app.
  change (drop 3 (fence ++ ?r)) with r.
  change (drop_while is_word (ch_newline :: ?r)) with (ch_newline :: r).
  cbv iota beta. rewrite N.eqb_refl.
  pose proof (find_sub_fence_first body [] Hbody) as Hfind.
  rewrite app_nil_r in Hfind. by rewrite Hfind.
Qed.

Lemma root_marker_skipped cfg st : process_line cfg st [ch_dot] = st.
Proof. destruct st as [path_stack docs]. by rewrite process_line_unfold. Qed.

Lemma diagram_line_tidy cfg unit (comps : list pystr) is_dir :
  comps ≠ [] →
  Forall (λ n, valid_name n = true) comps →
  plain_name cfg (List.last comps []) = true →
  tidy_line (diagram_line unit (entry_path comps is_dir)).
Proof.
  intros Hne Hvalid Hplain. rewrite diagram_line_entry by done.
  destruct (plain_name_inv _ _ Hplain)
    as (_ & _ & Htick & Hbr & _ & (s & d & Hs & Hd) & _).
  unfold entry_token. repeat split.
  - rewrite !existsb_app, Hbr.
    rewrite existsb_replicate by done.
    by destruct is_dir.
  - rewrite !contains_app, Htick.
    unfold contains at 1.
    rewrite existsb_replicate by done.
    by destruct is_dir.
  - destruct is_dir.
    + exists (replicate (unit * length comps) ch_space ++ List.last comps []),
        ch_slash. by rewrite <- app_assoc.
    + exists (replicate (unit * length comps) ch_space ++ s), d.
      by rewrite app_nil_r, Hs, <- app_assoc.
Qed.

(** ** The round trip *)

Lemma scan_file_extension cfg rel filename :
  is_Some (scan_file cfg rel filename) →
  lower (name_suffix filename) ∉ IGNORE_EXTENSIONS cfg.
Proof.
  unfold scan_file. destruct (mem filename (IGNORE_FILES cfg));
    [by intros [? ?]|].
  destruct (mem _ (IGNORE_EXTENSIONS cfg)) eqn:Hext; [by intros [? ?]|].
  intros _. by apply mem_false.
Qed.

Lemma entry_ok_fit cfg e :
  entry_ok cfg e → plain_name cfg (List.last e.1 []) = true →
  entry_fit cfg e.
Proof.
  destruct e as [comps is_dir]. unfold entry_ok, entry_fit. cbn [fst snd].
  intros (Hne & Hvalid & Hdirs & Hfile) Hplain.
  split; [done|]. split; [done|]. split; [done|]. split.
  - destruct is_dir; [done|].
    rewrite (app_removelast_last [] Hne). apply Forall_app. split; [done|].
    constructor; [|constructor].
    by destruct (plain_name_inv _ _ Hplain) as (_ & _ & _ & _ & _ & _ & ? & _).
  - intros Hdir. eapply scan_file_extension. by apply Hfile.
Qed.

Lemma final_keep_entry cfg e :
  entry_fit cfg e → final_keep cfg (entry_path e.1 e.2) = true.
Proof.
  destruct e as [comps is_dir]. unfold entry_fit. cbn [fst snd].
  intros (Hne & Hvalid & Hplain & Hdirs & Hext).
  destruct (plain_name_inv _ _ Hplain) as (_ & _ & _ & _ & _ & _ & HnD & HnF).
  unfold final_keep, path_suffix.
  rewrite path_name_entry, path_parts_entry by done.
  rewrite (proj1 (endswith_entry comps is_dir Hvalid Hne)).
  rewrite existsb_mem_dirs by done.
  rewrite (bool_decide_eq_false_2 _ HnD : mem _ _ = false).
  rewrite (bool_decide_eq_false_2 _ HnF : mem _ _ = false).
  destruct is_dir; [done|]. simpl.
  by rewrite (bool_decide_eq_false_2 _ (Hext eq_refl) : mem _ _ = false).
Qed.

Lemma filter_all_kept cfg (paths : list pystr) :
  Forall (λ p, final_keep cfg p = true) paths →
  filter (λ p, Is_true (final_keep cfg p)) (list_to_set paths : gset pystr)
  = list_to_set paths.
Proof.
  intros Hall. apply set_eq. intros p. rewrite elem_of_filter.
  rewrite elem_of_list_to_set. split; [by intros [_ ?]|].
  intros Hp. split; [|done]. rewrite Forall_forall in Hall.
  apply Is_true_eq_left. by apply Hall.
Qed.

(** The diagram of entries in diagram order parses to their paths. *)
Lemma diagram_of_entries cfg unit es :
  1 ≤ unit →
  chain [] es → Forall (entry_fit cfg) es →
  extract_from_content cfg
    (diagram unit ((λ e, entry_path e.1 e.2) <$> es)) =
  Some (list_to_set ((λ e, entry_path e.1 e.2) <$> es)).
Proof.
  intros Hunit Hchain Hfit.
  set (lines := (λ e, diagram_line unit (entry_path e.1 e.2)) <$> es).
  assert (Htidy : Forall tidy_line lines).
  { unfold lines. apply Forall_fmap. eapply Forall_impl; [exact Hfit|].
    intros [comps is_dir]. unfold entry_fit. cbn [fst snd].
    intros (Hne & Hv & Hp & _). by eapply diagram_line_tidy. }
  assert (Htext : diagram unit ((λ e, entry_path e.1 e.2) <$> es) =
                  fence ++ ch_newline
                  :: (text_of [ch_dot] lines ++ [ch_newline]) ++ fence).
  { unfold diagram. rewrite <- block_text. unfold lines.
    rewrite <- !list_fmap_compose. by rewrite <- app_assoc. }
  unfold extract_from_content.
  rewrite Htext, search_code_block_fenced
    by (by apply text_of_no_backtick).
  rewrite strip_block by done. unfold splitlines.
  rewrite splitlines_text by done. cbn [rev app].
  unfold parse_lines. cbn [foldl]. rewrite root_marker_skipped.
  change (@nil (pystr * nat)) with (stack_of unit []).
  unfold lines. rewrite parse_entry_lines by done. cbn [snd].
  rewrite (right_id_L ∅ (∪)). f_equal. apply filter_all_kept.
  apply Forall_fmap. eapply Forall_impl; [exact Hfit|].
  intros e He. by apply final_keep_entry.
Qed.

(** The entries of a scan whose names are plain fit a diagram. *)
Lemma scan_entries_fit cfg root :
  valid_tree root = true →
  (∀ (is_dir : bool) (p : pystr),
     (is_dir, p) ∈ scan_entries cfg root →
     plain_name cfg (path_name p) = true) →
  Forall (entry_fit cfg) (tree_entries cfg [] root).
Proof.
  intros Hroot Hplain.
  pose proof (tree_entries_ok cfg root [] (Forall_nil_2 _) (Forall_nil_2 _)
                Hroot) as Hok.
  rewrite Forall_forall in Hok |- *. intros e He.
  assert (Hvalid : entry_ok cfg e) by (by apply Hok).
  apply entry_ok_fit; [done|].
  destruct Hvalid as (Hne & Hv & _).
  rewrite <- (path_name_entry e.1 e.2) by done.
  apply (Hplain e.2). rewrite (scan_entries_root _ _ Hroot).
  apply list_elem_of_fmap. by exists e.
Qed.

Lemma scan_paths cfg root :
  valid_tree root = true →
  snd <$> scan_entries cfg root =
  (λ e, entry_path e.1 e.2) <$> tree_entries cfg [] root.
Proof.
  intros Hroot. by rewrite (scan_entries_root _ _ Hroot), <- list_fmap_compose.
Qed.

(** ** The sorted order *)

Lemma str_leb_refl (a : pystr) : str_leb a a = true.
Proof.
  induction a as [|x a IH]; [done|]. simpl.
  by rewrite N.eqb_refl, IH, orb_true_r.
Qed.

Lemma str_leb_cons (x y : N) (a b : pystr) :
  str_leb (x :: a) (y :: b) = true ↔
  (x < y)%N ∨ (x = y ∧ str_leb a b = true).
Proof.
  cbn [str_leb]. rewrite orb_true_iff, andb_true_iff, N.ltb_lt, N.eqb_eq.
  tauto.
Qed.

Lemma str_leb_trans (a b c : pystr) :
  str_leb a b = true → str_leb b c = true → str_leb a c = true.
Proof.
  revert b c. induction a as [|x a IH]; intros [|y b] [|z c]; try done.
  rewrite !str_leb_cons. intros [Hxy|[-> Hab]] [Hyz|[-> Hbc]].
  - left. lia.
  - by left.
  - by left.
  - right. split; [done|]. by eapply IH.
Qed.

Lemma str_leb_total (a b : pystr) :
  str_leb a b = true ∨ str_leb b a = true.
Proof.
  revert b. induction a as [|x a IH]; intros [|y b]; try (by left);
    [by right|].
  rewrite !str_leb_cons.
  destruct (N.lt_trichotomy x y) as [Hlt|[->|Hgt]]; [tauto| |tauto].
  destruct (IH b); tauto.
Qed.

Lemma str_leb_antisym (a b : pystr) :
  str_leb a b = true → str_leb b a = true → a = b.
Proof.
  revert b. induction a as [|x a IH]; intros [|y b]; try done.
  rewrite !str_leb_cons. intros [Hxy|[-> Hab]] [Hyx|[Heq Hba]]; try lia.
  f_equal. by apply IH.
Qed.

Lemma str_leb_app (a b : pystr) : str_leb a (a ++ b) = true.
Proof.
  induction a as [|x a IH]; [done|]. simpl.
  by rewrite N.eqb_refl, IH, orb_true_r.
Qed.

(** What lies between a string and an extension of it extends it too. *)
Lemma str_leb_between (a q c : pystr) :
  str_leb a q = true → str_leb q (a ++ c) = true → ∃ r, q = a ++ r.
Proof.
  revert q. induction a as [|x a IH]; intros q; [by exists q|].
  destruct q as [|y q]; [done|].
  change ((x :: a) ++ c) with (x :: a ++ c). rewrite !str_leb_cons.
  intros [Hxy|[-> Haq]] [Hyx|[Heq Hqa]]; try lia.
  destruct (IH q Haq Hqa) as [r ->]. by exists r.
Qed.

Global Instance str_le_trans : Transitive str_le.
Proof.
  intros a b c Hab%Is_true_eq_true Hbc%Is_true_eq_true.
  apply Is_true_eq_left. by eapply str_leb_trans.
Qed.

Global Instance str_le_total : Total str_le.
Proof.
  intros a b. unfold str_le.
  destruct (str_leb_total a b) as [H|H]; rewrite H; simpl; tauto.
Qed.

Lemma sorted_strongly (paths : gset pystr) :
  StronglySorted str_le (sorted paths) ∧
  (∀ p, p ∈ sorted paths ↔ p ∈ paths) ∧
  list_to_set (sorted paths) = paths.
Proof.
  unfold sorted. split; [|split].
  - apply (StronglySorted_merge_sort str_le); apply _.
  - intros p. rewrite (merge_sort_Permutation str_le (elements paths)).
    apply elem_of_elements.
  - rewrite (merge_sort_Permutation str_le (elements paths)).
    apply list_to_set_elements_L.
Qed.

Lemma split_on_nonempty (sep : N) (s : pystr) : split_on sep s ≠ [].
Proof.
  destruct s as [|c s]; [done|]. simpl.
  destruct (N.eqb c sep); [done|]. by destruct (split_on sep s).
Qed.

Lemma split_on_sep_app (sep : N) (a r : pystr) :
  split_on sep (a ++ sep :: r) = split_on sep a ++ split_on sep r.
Proof.
  induction a as [|c a IH].
  - simpl. by rewrite N.eqb_refl.
  - change ((c :: a) ++ sep :: r) with (c :: a ++ sep :: r).
    cbn [split_on]. rewrite IH. destruct (N.eqb c sep); [done|].
    pose proof (split_on_nonempty sep a) as Hne.
    by destruct (split_on sep a).
Qed.

Lemma to_entry_path (comps : list pystr) (is_dir : bool) :
  Forall (λ n, valid_name n = true) comps → comps ≠ [] →
  to_entry (entry_path comps is_dir) = (comps, is_dir).
Proof.
  intros Hvalid Hne. unfold to_entry.
  by rewrite path_parts_entry, (proj1 (endswith_entry _ _ Hvalid Hne)).
Qed.

(** An entry whose path extends the path of a directory lies in it. *)
Lemma path_extension_prefix (par : list pystr) (q : list pystr * bool)
    (r : pystr) :
  Forall (λ n, valid_name n = true) par → par ≠ [] →
  Forall (λ n, valid_name n = true) q.1 → q.1 ≠ [] →
  entry_path q.1 q.2 = entry_path par true ++ r →
  par `prefix_of` open_path q.
Proof.
  intros Hpar Hne Hq Hqne Heq. destruct q as [comps is_dir].
  cbn [fst snd] in *. unfold open_path. cbn [fst snd].
  apply (f_equal (split_on ch_slash)) in Heq.
  unfold entry_path at 2 in Heq. rewrite <- app_assoc in Heq.
  change ([ch_slash] ++ r) with (ch_slash :: r) in Heq.
  rewrite split_on_sep_app, (proj1 (split_on_join par Hpar Hne)) in Heq.
  pose proof (split_on_nonempty ch_slash r) as Hr.
  destruct (exists_last Hr) as (init & x & Hix). rewrite Hix in Heq.
  unfold entry_path in Heq. destruct is_dir.
  - rewrite (proj2 (split_on_join comps Hq Hqne)), app_assoc in Heq.
    apply app_inj_tail in Heq as [-> _]. by exists init.
  - rewrite app_nil_r, (proj1 (split_on_join comps Hq Hqne)) in Heq.
    rewrite Heq, app_assoc, removelast_last. by exists init.
Qed.

Lemma tree_entries_first cfg filenames subdirs rel :
  rel ≠ [] → (rel, true) ∈ tree_entries cfg rel (Dir filenames subdirs).
Proof.
  intros Hrel. cbn [tree_entries].
  rewrite (bool_decide_eq_false_2 _ Hrel). apply elem_of_app. left.
  by apply list_elem_of_singleton.
Qed.

(** With each entry the scan has the directory that holds it. *)
Lemma tree_entries_parent cfg d rel e :
  e ∈ tree_entries cfg rel d →
  e = (rel, true) ∨ removelast e.1 = rel ∨
  (removelast e.1, true) ∈ tree_entries cfg rel d.
Proof.
  revert rel. induction d as [|filenames subdirs IH] using fs_dir_nested_ind;
    intros rel; [by intros ?%elem_of_nil|].
  cbn [tree_entries]. intros He. rewrite !elem_of_app in He.
  destruct He as [Hfirst|[Hfile|Hsub]].
  - left. case_bool_decide; [by apply elem_of_nil in Hfirst|].
    by apply list_elem_of_singleton in Hfirst.
  - right. left. apply list_elem_of_omap in Hfile as (f & _ & Hf).
    destruct (scan_file cfg rel f); [|done].
    injection Hf as <-. apply removelast_last.
  - right.
    assert (Hsubs : removelast e.1 = rel ∨
      (removelast e.1, true) ∈
        flat_map (λ sub : pystr * fs_dir,
                    if negb (mem (fst sub) (IGNORE_DIRS cfg))
                    then tree_entries cfg (rel ++ [fst sub]) (snd sub)
                    else []) subdirs).
    { induction subdirs as [|[name sub] subdirs IHsub];
        [by apply elem_of_nil in Hsub|].
      apply Forall_cons in IH as [IHhead IHtail]. cbn [flat_map fst snd] in *.
      apply elem_of_app in Hsub as [Hsub|Hsub].
      - destruct (negb (mem name (IGNORE_DIRS cfg)));
          [|by apply elem_of_nil in Hsub].
        destruct (IHhead _ Hsub) as [->|[Hpar|Hpar]].
        + left. apply removelast_last.
        + right. apply elem_of_app. left. rewrite Hpar.
          destruct sub as [fs ss|]; [|by apply elem_of_nil in Hsub].
          apply tree_entries_first. by destruct rel.
        + right. apply elem_of_app. by left.
      - destruct (IHsub IHtail Hsub) as [Hpar|Hpar]; [by left|]. right.
        apply elem_of_app. by right. }
    destruct Hsubs as [Hpar|Hpar]; [by left|]. right.
    apply elem_of_app. right. apply elem_of_app. by right.
Qed.

Lemma entry_path_parent (comps : list pystr) (is_dir : bool) :
  comps ≠ [] → removelast comps ≠ [] →
  entry_path comps is_dir =
  entry_path (removelast comps) true
  ++ entry_token (List.last comps []) is_dir.
Proof.
  intros Hne Hpar. unfold entry_path, entry_token.
  rewrite (app_removelast_last [] Hne) at 1.
  rewrite join_slash_snoc by done. by rewrite <- !app_assoc.
Qed.

(** The parent directory of an entry, in a sorted list of the paths of
    entries that holds it, comes before the entry. *)
Lemma parent_not_later (es : list (list pystr * bool)) c cur later :
  (∀ e, e ∈ es → e.1 ≠ [] ∧ Forall (λ n, valid_name n = true) e.1) →
  c ∈ es → (removelast c.1, true) ∈ es →
  cur = entry_path c.1 c.2 →
  Forall (str_le cur) later →
  ∃ r, cur = entry_path (removelast c.1) true ++ r ∧
       entry_path (removelast c.1) true ∉ cur :: later.
Proof.
  intros Hes Hc Hpar -> Hlater.
  destruct (Hes _ Hc) as [Hne Hvalid].
  destruct (Hes _ Hpar) as [Hpne _]. cbn [fst] in Hpne.
  pose proof (entry_path_parent c.1 c.2 Hne Hpne) as Heq.
  exists (entry_token (List.last c.1 []) c.2). split; [done|].
  assert (Hneq : entry_path (removelast c.1) true ≠ entry_path c.1 c.2).
  { intros Hsame. rewrite Heq in Hsame.
    apply (f_equal length) in Hsame. rewrite length_app in Hsame.
    assert (Hname : valid_name (List.last c.1 []) = true).
    { rewrite Forall_forall in Hvalid. apply Hvalid.
      rewrite (app_removelast_last [] Hne) at 2.
      apply elem_of_app. right. by apply list_elem_of_singleton. }
    apply valid_name_inv in Hname as (Hnn & _).
    unfold entry_token in Hsame. rewrite length_app in Hsame.
    destruct (List.last c.1 []); [done|]. simpl in Hsame. lia. }
  intros [Hsame|Hin]%elem_of_cons; [done|].
  rewrite Forall_forall in Hlater. apply Hlater in Hin.
  apply Hneq. apply str_leb_antisym.
  - rewrite Heq. apply str_leb_app.
  - by apply Is_true_eq_true.
Qed.

Lemma sorted_chain (es : list (list pystr * bool)) ps prev :
  (∀ e, e ∈ es → e.1 ≠ [] ∧ Forall (λ n, valid_name n = true) e.1) →
  (∀ e, e ∈ es → removelast e.1 = [] ∨ (removelast e.1, true) ∈ es) →
  (∀ p, p ∈ prev :: ps → ∃ e, e ∈ es ∧ p = entry_path e.1 e.2) →
  (∀ e, e ∈ es →
        str_le (entry_path e.1 e.2) prev ∨ entry_path e.1 e.2 ∈ ps) →
  StronglySorted str_le (prev :: ps) →
  chain (open_path (to_entry prev)) (to_entry <$> ps).
Proof.
  intros Hes Hclosed. revert prev.
  induction ps as [|cur ps IH]; intros prev Hin Hcover Hsorted; [done|].
  apply StronglySorted_inv in Hsorted as [Hsorted Hprev].
  destruct (Hin cur) as (c & Hc & Hcur);
    [apply elem_of_cons; right; apply elem_of_cons; by left|].
  destruct (Hin prev) as (q & Hq & Hprevq); [apply elem_of_cons; by left|].
  destruct (Hes _ Hc) as [Hcne Hcvalid]. destruct (Hes _ Hq) as [Hqne Hqvalid].
  cbn [fmap list_fmap chain].
  rewrite Hcur at 1 2. rewrite Hprevq at 1.
  rewrite !to_entry_path by done. cbn [fst]. split.
  - destruct (Hclosed _ Hc) as [->|Hpar]; [apply prefix_nil|].
    destruct (Hes _ Hpar) as [Hpne Hpvalid]. cbn [fst] in Hpne, Hpvalid.
    pose proof Hsorted as Hlater. apply StronglySorted_inv in Hlater as [_ Hlater].
    destruct (parent_not_later es c cur ps Hes Hc Hpar Hcur Hlater)
      as (r & Hr & Hnot).
    destruct (Hcover _ Hpar) as [Hle|Hlater']; [|done].
    cbn [fst snd] in Hle.
    destruct (str_leb_between (entry_path (removelast c.1) true) prev r)
      as [r' Hr'].
    + by apply Is_true_eq_true.
    + rewrite <- Hr. apply Is_true_eq_true.
      apply Forall_inv in Hprev. exact Hprev.
    + apply (path_extension_prefix _ q r'); try done. by rewrite <- Hprevq.
  - rewrite <- (to_entry_path c.1 c.2), <- Hcur by done.
    apply IH; [|  |done].
    + intros p Hp. apply Hin. apply elem_of_cons. by right.
    + intros e He. destruct (Hcover _ He) as [Hle|[->|Hlater]%elem_of_cons].
      * left. etrans; [exact Hle|]. by apply Forall_inv in Hprev.
      * left. apply Is_true_eq_left, str_leb_refl.
      * by right.
Qed.

(** The sorted paths of a scan are in diagram order. *)
Lemma sorted_scan_chain cfg root :
  valid_tree root = true →
  let paths := sorted (scan_project_files_for_verify cfg root) in
  chain [] (to_entry <$> paths) ∧
  (∀ p, p ∈ paths →
        ∃ e, e ∈ tree_entries cfg [] root ∧ p = entry_path e.1 e.2 ∧
             to_entry p = e).
Proof.
  intros Hroot. cbv zeta.
  set (es := tree_entries cfg [] root).
  destruct (sorted_strongly (scan_project_files_for_verify cfg root))
    as (Hsorted & Helem & _).
  assert (Hes : ∀ e, e ∈ es →
                     e.1 ≠ [] ∧ Forall (λ n, valid_name n = true) e.1).
  { pose proof (tree_entries_ok cfg root [] (Forall_nil_2 _) (Forall_nil_2 _)
                  Hroot) as Hok.
    rewrite Forall_forall in Hok. intros e He.
    destruct (Hok e He) as (? & ? & _). by split. }
  assert (Hclosed : ∀ e, e ∈ es →
                         removelast e.1 = [] ∨ (removelast e.1, true) ∈ es).
  { intros e He. destruct (tree_entries_parent _ _ _ _ He) as [->|[?|?]];
      [|by left|by right].
    by destruct (Hes _ He) as [? _]. }
  assert (Hscan : ∀ p, p ∈ scan_project_files_for_verify cfg root ↔
                       ∃ e, e ∈ es ∧ p = entry_path e.1 e.2).
  { intros p. unfold scan_project_files_for_verify.
    rewrite elem_of_list_to_set, scan_paths by done.
    rewrite list_elem_of_fmap. split; intros (e & ? & ?); by exists e. }
  assert (Hin : ∀ p, p ∈ sorted (scan_project_files_for_verify cfg root) →
                     ∃ e, e ∈ es ∧ p = entry_path e.1 e.2).
  { intros p Hp. by apply Hscan, Helem. }
  split.
  - destruct (sorted (scan_project_files_for_verify cfg root))
      as [|first ps] eqn:Hps; [done|].
    destruct (Hin first) as (c & Hc & Hfirst); [apply elem_of_cons; by left|].
    destruct (Hes _ Hc) as [Hcne Hcvalid].
    cbn [fmap list_fmap chain]. split.
    + rewrite Hfirst, to_entry_path by done. cbn [fst].
      destruct (Hclosed _ Hc) as [->|Hpar]; [done|]. exfalso.
      pose proof Hsorted as Hlater.
      apply StronglySorted_inv in Hlater as [_ Hlater].
      destruct (parent_not_later es c first ps Hes Hc Hpar Hfirst Hlater)
        as (r & _ & Hnot).
      apply Hnot, Helem, Hscan. by exists (removelast c.1, true).
    + apply (sorted_chain es); try done.
      intros e He.
      assert (Hp : entry_path e.1 e.2 ∈ first :: ps)
        by (apply Helem, Hscan; by exists e).
      apply elem_of_cons in Hp as [->|Hp]; [left|by right].
      apply Is_true_eq_left, str_leb_refl.
  - intros p Hp. destruct (Hin p Hp) as (e & He & ->).
    exists e. split; [done|]. split; [done|].
    destruct (Hes _ He). destruct e. by apply to_entry_path.
Qed.

(** C4, as the script has it. The round trip holds for a scan whose names
    are ones a diagram line can carry: the diagram that lists, under the
    root marker, the paths of the scanned set in sorted order, each on a
    line indented by [unit] spaces for each path component, parses to the
    scanned set; so does the diagram that lists them in the order the scan
    adds them. *)
Theorem scan_diagram_round_trip cfg unit root :
  1 ≤ unit →
  valid_tree root = true →
  (∀ p, p ∈ scan_project_files_for_verify cfg root →
        plain_name cfg (path_name p) = true) →
  extract_from_content cfg
    (diagram unit (sorted (scan_project_files_for_verify cfg root))) =
  Some (scan_project_files_for_verify cfg root) ∧
  extract_from_content cfg (diagram unit (snd <$> scan_entries cfg root)) =
  Some (scan_project_files_for_verify cfg root).
Proof.
  intros Hunit Hroot Hplain.
  assert (Hfit : Forall (entry_fit cfg) (tree_entries cfg [] root)).
  { apply scan_entries_fit; [done|]. intros is_dir p Hin.
    apply Hplain, elem_of_scan. by exists is_dir. }
  split.
  - destruct (sorted_scan_chain cfg root Hroot) as [Hchain Hentries].
    destruct (sorted_strongly (scan_project_files_for_verify cfg root))
      as (_ & _ & Hset).
    set (paths := sorted (scan_project_files_for_verify cfg root)) in *.
    assert (Hpaths : (λ e, entry_path e.1 e.2) <$> (to_entry <$> paths)
                     = paths).
    { rewrite <- list_fmap_compose. rewrite <- (list_fmap_id paths) at 2.
      apply Forall_fmap_ext, Forall_forall. intros p Hp.
      destruct (Hentries p Hp) as (e & _ & Hpe & He).
      change (entry_path (to_entry p).1 (to_entry p).2 = p).
      by rewrite He. }
    rewrite <- Hset, <- Hpaths.
    apply diagram_of_entries; [done|done|].
    apply Forall_fmap, Forall_forall. intros p Hp.
    destruct (Hentries p Hp) as (e & Hin & _ & He).
    change (entry_fit cfg (to_entry p)). rewrite He.
    rewrite Forall_forall in Hfit. by apply Hfit.
  - unfold scan_project_files_for_verify. rewrite scan_paths by done.
    apply diagram_of_entries; [done| |done].
    by destruct (tree_entries_keep_open cfg root [] [] (prefix_nil _)).
Qed.

(** * Further properties of the scan *)

Lemma os_walk_without_ignored cfg d rel :
  os_walk (λ n, negb (mem n (IGNORE_DIRS cfg))) rel
    (without_ignored_contents cfg d) =
  os_walk (λ n, negb (mem n (IGNORE_DIRS cfg))) rel d.
Proof.
  revert rel. induction d as [|filenames subdirs IH] using fs_dir_nested_ind;
    intros rel; [done|].
  cbn [without_ignored_contents os_walk]. f_equal.
  - by rewrite map_map.
  - induction subdirs as [|[name sub] subdirs IHsub]; [done|].
    apply Forall_cons in IH as [IHhead IHtail].
    cbn [map flat_map fst snd] in *. rewrite (IHsub IHtail). f_equal.
    destruct (mem name (IGNORE_DIRS cfg)); [done|]. apply IHhead.
Qed.

(** X1. What lies inside a directory with an ignored name is never read:
    two trees that differ only there have the same scan. *)
Theorem ignored_directory_contents_are_not_read cfg root1 root2 :
  without_ignored_contents cfg root1 = without_ignored_contents cfg root2 →
  scan_entries cfg root1 = scan_entries cfg root2 ∧
  scan_project_files_for_verify cfg root1 =
  scan_project_files_for_verify cfg root2.
Proof.
  intros Hsame.
  assert (Hentries : scan_entries cfg root1 = scan_entries cfg root2).
  { unfold scan_entries.
    rewrite <- (os_walk_without_ignored cfg root1).
    rewrite <- (os_walk_without_ignored cfg root2). by rewrite Hsame. }
  split; [done|]. unfold scan_project_files_for_verify. by rewrite Hentries.
Qed.

Lemma scan_walk_without_closed cfg (keep : pystr → bool) d rel :
  flat_map (scan_dir cfg) (os_walk keep rel (without_closed d)) =
  flat_map (scan_dir cfg) (os_walk keep rel d).
Proof.
  revert rel. induction d as [|filenames subdirs IH] using fs_dir_nested_ind;
    intros rel; [done|].
  cbn [without_closed os_walk flat_map]. f_equal.
  induction subdirs as [|[name sub] subdirs IHsub]; [done|].
  apply Forall_cons in IH as [IHhead IHtail].
  cbn [flat_map fst snd] in *. rewrite !flat_map_app, (IHsub IHtail).
  f_equal. destruct sub as [fs ss|].
  - cbn [flat_map fst snd]. rewrite app_nil_r.
    destruct (keep name); [apply IHhead|done].
  - by destruct (keep name).
Qed.

(** X2. A directory that [os.walk] does not enter (it cannot be listed, or
    it is a symbolic link) leaves no trace in the scan, not even its own
    entry: the scan is that of the tree without it. *)
Theorem closed_directories_are_not_scanned cfg root :
  scan_entries cfg (without_closed root) = scan_entries cfg root ∧
  scan_project_files_for_verify cfg (without_closed root) =
  scan_project_files_for_verify cfg root.
Proof.
  assert (Hentries : scan_entries cfg (without_closed root)
                     = scan_entries cfg root)
    by apply scan_walk_without_closed.
  split; [done|]. unfold scan_project_files_for_verify. by rewrite Hentries.
Qed.

Lemma scan_file_Some_inv cfg rel filename p :
  scan_file cfg rel filename = Some p →
  (filename ∉ IGNORE_FILES cfg) ∧
  (lower (name_suffix filename) ∉ IGNORE_EXTENSIONS cfg) ∧
  existsb (λ pattern, pattern (as_posix (rel ++ [filename])))
    (IGNORE_PATTERNS cfg) = false.
Proof.
  unfold scan_file.
  destruct (mem filename (IGNORE_FILES cfg)) eqn:Hfile; [done|].
  destruct (mem _ (IGNORE_EXTENSIONS cfg)) eqn:Hext; [done|].
  destruct (existsb _ _) eqn:Hpat; [done|]. intros _.
  split; [by apply mem_false|]. split; [by apply mem_false|done].
Qed.

Lemma as_posix_snoc (rel : list pystr) (name : pystr) :
  as_posix (rel ++ [name]) = join_slash (rel ++ [name]).
Proof. by destruct rel. Qed.

(** X3. Every file the scan adds passes the three file rules: its name is
    not in [IGNORE_FILES], its lower-cased suffix is not in
    [IGNORE_EXTENSIONS], and no pattern of [IGNORE_PATTERNS] matches its
    path. *)
Theorem scanned_files_pass_the_rules cfg root p :
  valid_tree root = true →
  (false, p) ∈ scan_entries cfg root →
  (path_name p ∉ IGNORE_FILES cfg) ∧
  (lower (path_suffix p) ∉ IGNORE_EXTENSIONS cfg) ∧
  existsb (λ pattern, pattern p) (IGNORE_PATTERNS cfg) = false.
Proof.
  intros Hroot Hin.
  destruct (scan_entries_inv _ _ _ _ Hroot Hin)
    as (comps & -> & Hne & Hvalid & _ & Hfile). cbn [fst snd] in *.
  destruct (Hfile eq_refl) as [q Hq].
  destruct (scan_file_Some_inv _ _ _ _ Hq) as (HnF & HnE & Hpat).
  unfold path_suffix. rewrite path_name_entry by done.
  split; [done|]. split; [done|].
  rewrite as_posix_snoc, <- (app_removelast_last [] Hne) in Hpat.
  unfold entry_path. by rewrite app_nil_r.
Qed.

(** X4. The scan is closed under parents: with every path of two or more
    components it holds the entry of the directory the path lies in. *)
Theorem scanned_paths_have_their_parents cfg root (is_dir : bool) p :
  valid_tree root = true →
  (is_dir, p) ∈ scan_entries cfg root →
  removelast (path_parts p) ≠ [] →
  (true, join_slash (removelast (path_parts p)) ++ [ch_slash])
    ∈ scan_entries cfg root.
Proof.
  intros Hroot Hin Hdeep.
  destruct (scan_entries_inv _ _ _ _ Hroot Hin)
    as (comps & -> & Hne & Hvalid & _). cbn [fst snd] in *.
  rewrite path_parts_entry in * by done.
  rewrite (scan_entries_root _ _ Hroot) in Hin |- *.
  apply list_elem_of_fmap in Hin as (e & He & Hin).
  injection He as -> Hpath.
  assert (Hcomps : e.1 = comps).
  { pose proof (tree_entries_ok cfg root [] (Forall_nil_2 _) (Forall_nil_2 _)
                  Hroot) as Hok.
    rewrite Forall_forall in Hok. destruct (Hok e Hin) as (Hene & Hev & _).
    transitivity (path_parts (entry_path e.1 e.2));
      [symmetry; by apply path_parts_entry|].
    rewrite <- Hpath. by apply path_parts_entry. }
  apply list_elem_of_fmap. exists (removelast comps, true).
  split; [done|].
  destruct (tree_entries_parent _ _ _ _ Hin) as [Hroot'|[Hpar|Hpar]].
  - rewrite Hroot' in Hcomps. by subst comps.
  - by rewrite Hcomps in Hpar.
  - by rewrite Hcomps in Hpar.
Qed.

Lemma at_path_entries cfg root rel d e :
  at_path root rel d →
  Forall (λ n, n ∉ IGNORE_DIRS cfg) rel →
  e ∈ tree_entries cfg rel d → e ∈ tree_entries cfg [] root.
Proof.
  intros Hat. revert e. induction Hat as [|rel fs ss name d Hat IH Hsub];
    intros e Hkept He; [done|].
  apply Forall_app in Hkept as [Hkept Hname].
  apply Forall_inv in Hname. apply IH; [done|].
  cbn [tree_entries]. apply elem_of_app. right. apply elem_of_app. right.
  apply list_elem_of_In, in_flat_map. exists (name, d).
  split; [by apply list_elem_of_In|]. cbn [fst snd].
  rewrite (bool_decide_eq_false_2 _ Hname : mem _ _ = false).
  by apply list_elem_of_In.
Qed.

(** X5. Nothing that the rules let through is missed: a directory found
    under names none of which is ignored is scanned, and so is each of its
    files that passes the three file rules. *)
Theorem every_kept_entry_is_scanned cfg root rel filenames subdirs :
  valid_tree root = true →
  at_path root rel (Dir filenames subdirs) →
  Forall (λ n, n ∉ IGNORE_DIRS cfg) rel →
  (rel ≠ [] →
   (true, join_slash rel ++ [ch_slash]) ∈ scan_entries cfg root) ∧
  (∀ filename,
     filename ∈ filenames →
     filename ∉ IGNORE_FILES cfg →
     lower (name_suffix filename) ∉ IGNORE_EXTENSIONS cfg →
     existsb (λ pattern, pattern (join_slash (rel ++ [filename])))
       (IGNORE_PATTERNS cfg) = false →
     (false, join_slash (rel ++ [filename])) ∈ scan_entries cfg root).
Proof.
  intros Hroot Hat Hkept. rewrite (scan_entries_root _ _ Hroot). split.
  - intros Hrel. apply list_elem_of_fmap. exists (rel, true).
    split; [done|]. eapply at_path_entries; [done..|].
    by apply tree_entries_first.
  - intros f Hf HnF HnE Hpat. apply list_elem_of_fmap.
    exists (rel ++ [f], false). split.
    { unfold entry_path. by rewrite app_nil_r. }
    eapply at_path_entries; [done..|].
    cbn [tree_entries]. apply elem_of_app. right. apply elem_of_app. left.
    apply list_elem_of_omap. exists f. split; [done|].
    assert (Hsome : is_Some (scan_file cfg rel f)).
    { unfold scan_file.
      rewrite (bool_decide_eq_false_2 _ HnF : mem _ _ = false).
      rewrite (bool_decide_eq_false_2 _ HnE : mem _ _ = false).
      rewrite as_posix_snoc, Hpat. destruct (str_eqb _ _); eauto. }
    by destruct Hsome as [q ->].
Qed.

Lemma filter_file_entries (g : pystr → option pystr) filenames :
  filter (λ e : bool * pystr, e.1 = true)
    (omap (λ filename, pair false <$> g filename) filenames) = [].
Proof.
  induction filenames as [|f filenames IH]; [done|]. cbn [omap list_omap].
  destruct (g f); simpl; [|exact IH]. by rewrite filter_cons_False.
Qed.

(** X6. Which directories the scan adds depends on [IGNORE_DIRS] alone: the
    file, extension and pattern rules never leave a directory out. *)
Theorem scanned_directories_depend_on_ignored_dirs_only cfg1 cfg2 root :
  IGNORE_DIRS cfg1 = IGNORE_DIRS cfg2 →
  filter (λ e : bool * pystr, e.1 = true) (scan_entries cfg1 root) =
  filter (λ e : bool * pystr, e.1 = true) (scan_entries cfg2 root).
Proof.
  intros Hdirs. unfold scan_entries. rewrite Hdirs.
  generalize (os_walk (λ d, negb (mem d (IGNORE_DIRS cfg2))) [] root).
  intros walk. induction walk as [|triple walk IH]; [done|].
  cbn [flat_map]. rewrite !filter_app, IH. f_equal.
  unfold scan_dir. by rewrite !filter_app, !filter_file_entries.
Qed.

(** * Further properties of the parser *)

Lemma drop_while_idem (f : N → bool) (s : pystr) :
  drop_while f (drop_while f s) = drop_while f s.
Proof.
  induction s as [|c s IH]; [done|]. simpl.
  destruct (f c) eqn:Hc; [exact IH|]. simpl. by rewrite Hc.
Qed.

Lemma drop_while_app_keep (f : N → bool) (x y : pystr) :
  forallb f x = false → drop_while f (x ++ y) = drop_while f x ++ y.
Proof.
  induction x as [|c x IH]; [done|]. simpl.
  destruct (f c); [exact IH|done].
Qed.

Lemma take_while_app_stop (f : N → bool) (l : pystr) (c : N) (t : pystr) :
  f c = false → take_while f (l ++ c :: t) = take_while f l.
Proof.
  intros Hc. induction l as [|a l IH]; simpl; [by rewrite Hc|].
  by rewrite IH.
Qed.

Lemma drop_while_app_stop (f : N → bool) (l : pystr) (c : N) (t : pystr) :
  f c = false → drop_while f (l ++ c :: t) = drop_while f l ++ c :: t.
Proof.
  intros Hc. induction l as [|a l IH]; simpl; [by rewrite Hc|].
  by destruct (f a).
Qed.

Lemma contains_drop_while (c : N) (f : N → bool) (s : pystr) :
  contains c s = false → contains c (drop_while f s) = false.
Proof.
  induction s as [|a s IH]; [done|]. intros Hs. simpl.
  destruct (f a); [|done]. apply IH.
  rewrite contains_cons in Hs. by apply orb_false_elim in Hs as [_ ?].
Qed.

Lemma rstrip_cons (a : N) (s : pystr) :
  rstrip (a :: s) = if forallb isspace (a :: s) then [] else a :: rstrip s.
Proof.
  unfold rstrip. cbn [rev forallb].
  destruct (forallb isspace s) eqn:Hs.
  - rewrite drop_while_all by (by rewrite forallb_rev).
    rewrite (drop_while_nil isspace (rev s)) by (by rewrite forallb_rev).
    rewrite andb_true_r. simpl. by destruct (isspace a).
  - rewrite andb_false_r.
    rewrite drop_while_app_keep by (by rewrite forallb_rev).
    by rewrite rev_app_distr.
Qed.

Lemma rstrip_idem (s : pystr) : rstrip (rstrip s) = rstrip s.
Proof. unfold rstrip. by rewrite rev_involutive, drop_while_idem. Qed.

Lemma starts_comment_app (s c : pystr) :
  contains ch_hash s = false →
  starts_comment (s ++ ch_hash :: c) = forallb isspace s.
Proof.
  unfold starts_comment. induction s as [|a s IH]; [done|].
  rewrite contains_cons. intros [Ha Hs]%orb_false_elim. simpl.
  destruct (isspace a); [by apply IH|]. by rewrite N.eqb_sym.
Qed.

(** The lazy group stops where only white space is left before a [#]. *)
Lemma lazy_node_comment (s c : pystr) :
  contains ch_hash s = false → lazy_node (s ++ ch_hash :: c) = rstrip s.
Proof.
  induction s as [|a s IH]; [done|]. intros Hs.
  change ((a :: s) ++ ch_hash :: c) with (a :: s ++ ch_hash :: c).
  cbn [lazy_node].
  change (a :: s ++ ch_hash :: c) with ((a :: s) ++ ch_hash :: c).
  rewrite (starts_comment_app _ _ Hs), rstrip_cons.
  destruct (forallb isspace (a :: s)); [done|].
  rewrite contains_cons in Hs. apply orb_false_elim in Hs as [_ Hs].
  by rewrite (IH Hs).
Qed.

Lemma strip_rstrip_core (r : pystr) :
  match r with c :: _ => isspace c = false | [] => True end →
  strip (rstrip r) = strip r.
Proof.
  destruct r as [|x t]; [done|]. intros Hx.
  assert (Hall : forallb isspace (x :: t) = false) by (simpl; by rewrite Hx).
  unfold strip, lstrip at 2. rewrite drop_while_stop by done.
  rewrite rstrip_cons, Hall. unfold lstrip. rewrite drop_while_stop by done.
  rewrite rstrip_cons, rstrip_idem. cbn [forallb]. by rewrite Hx.
Qed.

(** A comment after the node token changes neither the token nor the
    indentation. *)
Lemma match_line_comment (line comment : pystr) :
  contains ch_hash line = false →
  node_token (line ++ ch_hash :: comment) = node_token line ∧
  indentation (line ++ ch_hash :: comment) = indentation line.
Proof.
  intros Hline. unfold node_token, indentation, match_line. cbn [fst snd].
  rewrite take_while_app_stop, drop_while_app_stop by done.
  split; [|done].
  pose proof (contains_drop_while ch_hash is_decoration line Hline) as Hrest.
  rewrite lazy_node_comment, lazy_node_no_hash by done.
  apply strip_rstrip_core.
  destruct (drop_while is_decoration line) as [|x t] eqn:Hdrop; [done|].
  by apply decoration_not_space, (drop_while_head _ _ _ _ Hdrop).
Qed.

Lemma skipped_early_token cfg path_stack line :
  strip line ≠ [ch_dot] →
  skipped_early cfg path_stack line =
  token_skipped cfg path_stack (node_token line).
Proof.
  intros Hdot. unfold skipped_early, token_skipped.
  rewrite (bool_decide_eq_false_2 _ Hdot : str_eqb _ _ = false).
  rewrite orb_false_r. destruct (strip line) eqn:Hstrip; [|done].
  by rewrite (node_token_blank _ Hstrip).
Qed.

Lemma strip_with_hash (line comment : pystr) :
  strip (line ++ ch_hash :: comment) ≠ [ch_dot].
Proof.
  intros Hdot.
  destruct (strip_inv (line ++ ch_hash :: comment)) as (a & b & Heq & Ha & Hb).
  rewrite Hdot in Heq.
  assert (Hhash : contains ch_hash (line ++ ch_hash :: comment) = true).
  { rewrite contains_app, contains_cons, N.eqb_refl. by rewrite orb_true_r. }
  rewrite Heq, !contains_app in Hhash.
  assert (Hspace : ∀ x, forallb isspace x = true → contains ch_hash x = false).
  { intros x Hx. induction x as [|c x IH]; [done|]. simpl in Hx.
    apply andb_prop in Hx as [Hc Hx]. rewrite contains_cons, (IH Hx).
    rewrite orb_false_r. apply N.eqb_neq. by intros <-. }
  by rewrite (Hspace a Ha), (Hspace b Hb) in Hhash.
Qed.

(** X7. A comment that follows a line is dropped: a line without [#] that
    is not the lone root marker is read the same with and without a
    comment appended. Line and comment hold no newline, as the lines of
    [splitlines()] do. *)
Theorem inline_comment_is_dropped cfg st line comment :
  contains ch_newline line = false →
  contains ch_newline comment = false →
  contains ch_hash line = false →
  strip line ≠ [ch_dot] →
  process_line cfg st (line ++ ch_hash :: comment) = process_line cfg st line.
Proof.
  intros _ _ Hline Hdot. destruct st as [path_stack docs].
  destruct (match_line_comment line comment Hline) as [Hnode Hind].
  rewrite !process_line_unfold.
  rewrite !skipped_early_token by (done || apply strip_with_hash).
  by rewrite Hnode, Hind.
Qed.

(** X8. Of a line, only the node token and the length of the decoration
    before it count: two lines (without newline, as the lines of
    [splitlines()] are) with the same token, other than the root marker,
    and decorations of the same length are read the same, whatever glyphs
    the decorations are made of. *)
Theorem same_token_same_indentation cfg st line1 line2 :
  contains ch_newline line1 = false →
  contains ch_newline line2 = false →
  node_token line1 = node_token line2 →
  indentation line1 = indentation line2 →
  node_token line1 ≠ [ch_dot] →
  process_line cfg st line1 = process_line cfg st line2.
Proof.
  intros _ _ Hnode Hind Hdot. destruct st as [path_stack docs].
  rewrite !process_line_unfold. rewrite !skipped_early_token.
  - by rewrite Hnode, Hind.
  - intros Hstrip. apply Hdot. rewrite Hnode.
    by apply node_token_root_marker.
  - intros Hstrip. apply Hdot. by apply node_token_root_marker.
Qed.

Lemma no_token_no_change cfg st line :
  node_token line = [] → process_line cfg st line = st.
Proof.
  intros Hnode. destruct st as [path_stack docs].
  rewrite process_line_unfold. unfold skipped_early. rewrite Hnode.
  by rewrite orb_true_r.
Qed.

(** X9. A line of decoration glyphs only, with or without a comment after
    them, changes neither the stack nor the documented set. *)
Theorem decoration_only_line_is_skipped cfg st decoration comment :
  forallb is_decoration decoration = true →
  process_line cfg st decoration = st ∧
  process_line cfg st (decoration ++ ch_hash :: comment) = st.
Proof.
  intros Hdeco. split; apply no_token_no_change.
  - unfold node_token, match_line. cbn [snd].
    by rewrite (drop_while_nil _ _ Hdeco).
  - unfold node_token, match_line. cbn [snd].
    rewrite drop_while_all, drop_while_stop by done.
    by rewrite <- (app_nil_l (ch_hash :: comment)), lazy_node_comment.
Qed.

(** X10. The diagram is the first fenced block: the text before it (without
    backtick), the info string after the opening fence (word characters)
    and the text after the closing fence play no part. *)
Theorem code_block_is_found cfg pre tag body post :
  contains ch_backtick pre = false →
  forallb is_word tag = true →
  contains ch_backtick body = false →
  search_code_block
    (pre ++ fence ++ tag ++ ch_newline :: body ++ fence ++ post) = Some body ∧
  extract_from_content cfg
    (pre ++ fence ++ tag ++ ch_newline :: body ++ fence ++ post) =
  extract_from_content cfg (fence ++ ch_newline :: body ++ fence).
Proof.
  intros Hpre Htag Hbody.
  assert (Hsearch : search_code_block
    (pre ++ fence ++ tag ++ ch_newline :: body ++ fence ++ post) = Some body).
  { apply search_code_block_skip; [done|].
    unfold match_code_block. rewrite startswith_app.
    change (drop 3 (fence ++ ?r)) with r.
    rewrite drop_while_all, drop_while_stop by done.
    rewrite N.eqb_refl. by rewrite find_sub_fence_first. }
  split; [done|]. unfold extract_from_content.
  by rewrite Hsearch, search_code_block_fenced.
Qed.

Lemma rstrip_slash_end (x : pystr) :
  endswith [ch_slash] (rstrip_slash x) = false.
Proof.
  unfold rstrip_slash, endswith. rewrite rev_involutive.
  destruct (drop_while (N.eqb ch_slash) (rev x)) as [|c t] eqn:Hdrop; [done|].
  apply drop_while_head in Hdrop.
  change (N.eqb ch_slash c && true = false). by rewrite Hdrop.
Qed.

(** What a line documents: nothing, or one path, which is a text without
    final slash, followed by one slash if the token of the line ends with
    one. *)
Lemma process_line_docs cfg path_stack docs line :
  (process_line cfg (path_stack, docs) line).2 = docs ∨
  ∃ x, (process_line cfg (path_stack, docs) line).2 =
       {[ rstrip_slash x
          ++ (if endswith [ch_slash] (node_token line)
              then [ch_slash] else []) ]} ∪ docs.
Proof.
  rewrite process_line_unfold.
  destruct (skipped_early cfg path_stack line); [by left|]. cbv zeta.
  destruct (current_path_of _ _ _) as [cur|]; [|by left].
  unfold record_entry.
  destruct (mem (path_name (rstrip_slash cur)) (IGNORE_DIRS cfg)); [by left|].
  destruct (negb (endswith [ch_slash] (node_token line)) && _); [by left|].
  destruct (mem (path_name (rstrip_slash cur)) (IGNORE_FILES cfg));
    [by left|].
  cbn [snd]. destruct (negb (existsb _ _)); [|by left].
  right. exists cur. destruct (endswith [ch_slash] (node_token line)); [done|].
  by rewrite app_nil_r.
Qed.

(** X11. A line never removes a documented path and adds at most one. *)
Theorem line_adds_at_most_one_path cfg path_stack docs line :
  docs ⊆ (process_line cfg (path_stack, docs) line).2 ∧
  size (process_line cfg (path_stack, docs) line).2 ≤ S (size docs).
Proof.
  destruct (process_line_docs cfg path_stack docs line) as [->|[x ->]].
  - split; [done|lia].
  - split; [apply union_subseteq_r|].
    rewrite size_union_alt, size_singleton.
    pose proof (subseteq_size (docs ∖ {[rstrip_slash x ++
        (if endswith [ch_slash] (node_token line) then [ch_slash] else [])]})
        docs) as Hsize.
    specialize (Hsize (subseteq_difference_l _ _ _ (reflexivity _))). lia.
Qed.

Lemma endswith2_slash (clean : pystr) (is_dir : bool) :
  endswith [ch_slash] clean = false →
  endswith [ch_slash; ch_slash]
    (clean ++ (if is_dir then [ch_slash] else [])) = false.
Proof.
  intros Hclean. destruct clean as [|c clean _] using rev_ind.
  - by destruct is_dir.
  - rewrite endswith_snoc in Hclean. destruct is_dir.
    + rewrite <- app_assoc. change ([c] ++ [ch_slash]) with [c; ch_slash].
      by rewrite endswith2_snoc, Hclean, andb_false_r.
    + rewrite app_nil_r. unfold endswith. rewrite rev_app_distr.
      change (N.eqb ch_slash c && startswith [ch_slash] (rev clean) = false).
      by rewrite Hclean.
Qed.

(** X12. Final slashes are normalised: however many slashes a diagram line
    ends with, no documented path ends with two. *)
Theorem documented_paths_end_with_one_slash_at_most cfg content docs p :
  extract_from_content cfg content = Some docs →
  p ∈ docs →
  endswith [ch_slash; ch_slash] p = false.
Proof.
  unfold extract_from_content. destruct (search_code_block content); [|done].
  intros [= <-] [_ Hp]%elem_of_filter. revert p Hp. unfold parse_lines.
  generalize (splitlines (strip l)). intros lines.
  assert (Hinv : ∀ (st : parse_state),
    (∀ p, p ∈ st.2 → endswith [ch_slash; ch_slash] p = false) →
    ∀ p, p ∈ (foldl (process_line cfg) st lines).2 →
         endswith [ch_slash; ch_slash] p = false).
  { induction lines as [|line lines IH]; intros st Hst; [done|].
    cbn [foldl]. apply IH. destruct st as [path_stack docs0]. intros p.
    destruct (process_line_docs cfg path_stack docs0 line) as [->|[x ->]];
      [by apply Hst|].
    intros [->%elem_of_singleton|Hp]%elem_of_union; [|by apply Hst].
    apply endswith2_slash, rstrip_slash_end. }
  apply Hinv. by intros p ?%elem_of_empty.
Qed.

(** * Properties of peek mode and of the report *)

Lemma peek_loop_spec (num_lines i : Z) f lines_read last_line :
  (0 ≤ i)%Z →
  let shown := take (Z.to_nat (num_lines - i)) f in
  peek_loop num_lines i f lines_read last_line =
  (PeekText <$> shown, (lines_read + Z.of_nat (length shown))%Z,
   List.last shown last_line,
   bool_decide (length f ≤ Z.to_nat (num_lines - i))).
Proof.
  revert i lines_read last_line.
  induction f as [|line f IH]; intros i lines_read last_line Hi; cbv zeta.
  - rewrite take_nil. cbn [peek_loop fmap list_fmap length List.last].
    rewrite Z.add_0_r. by rewrite bool_decide_eq_true_2 by (simpl; lia).
  - cbn [peek_loop]. destruct (num_lines <=? i)%Z eqn:Hle.
    + apply Z.leb_le in Hle.
      replace (Z.to_nat (num_lines - i)) with 0 by lia.
      cbn [take fmap list_fmap length List.last]. rewrite Z.add_0_r.
      by rewrite bool_decide_eq_false_2 by (simpl; lia).
    + apply Z.leb_gt in Hle.
      replace (Z.to_nat (num_lines - i))
        with (S (Z.to_nat (num_lines - (i + 1)))) by lia.
      rewrite (IH (i + 1)%Z) by lia. cbv zeta.
      cbn [take fmap list_fmap length]. f_equal; [f_equal; [f_equal|]|].
      * lia.
      * generalize (take (Z.to_nat (num_lines - (i + 1))) f). intros l.
        destruct l as [|x l]; [done|]. change (List.last (line :: x :: l) last_line)
          with (List.last (x :: l) last_line).
        revert x. induction l as [|y l IHl]; intros x; [done|].
        change (List.last (x :: y :: l) line) with (List.last (y :: l) line).
        change (List.last (x :: y :: l) last_line)
          with (List.last (y :: l) last_line). apply IHl.
      * apply bool_decide_ext. simpl. lia.
Qed.

(** X13. Peeking into a file that is read without error prints its first
    [num_lines] lines in order (all of them when it has fewer, none when
    [num_lines] is not positive); the end-of-file mark follows exactly when
    the file has at least one line and fewer than [num_lines], and a newline
    is added exactly when the last line shown does not end with one. *)
Theorem peek_prints_the_first_lines relative lines (num_lines : Z) :
  let shown := take (Z.to_nat num_lines) lines in
  ∃ marks,
    peek_into_file relative (PeekLines lines false) num_lines =
    PeekHeader relative num_lines :: (PeekText <$> shown) ++ marks
    ++ [PeekRule (length relative + 25)] ∧
    (PeekEOF ∈ marks ↔ lines ≠ [] ∧ (Z.of_nat (length lines) < num_lines)%Z) ∧
    (PeekNewline ∈ marks ↔
     shown ≠ [] ∧ endswith [ch_newline] (List.last shown []) = false) ∧
    (∀ m, m ∈ marks → m = PeekEOF ∨ m = PeekNewline).
Proof.
  cbv zeta. unfold peek_into_file.
  rewrite (peek_loop_spec num_lines 0 lines 0 []) by done. cbv zeta.
  rewrite Z.sub_0_r, andb_false_r, Z.add_0_l.
  set (shown := take (Z.to_nat num_lines) lines).
  set (eof := (Z.of_nat (length shown) <? num_lines)%Z
              && (0 <? Z.of_nat (length shown))%Z).
  set (nl := (0 <? Z.of_nat (length shown))%Z
             && negb (endswith [ch_newline] (List.last shown []))).
  exists ((if eof then [PeekEOF] else [])
          ++ (if nl then [PeekNewline] else [])).
  split; [by rewrite <- !app_assoc|].
  assert (Hlen : length shown = length lines `min` Z.to_nat num_lines)
    by (unfold shown; rewrite length_take; lia).
  assert (Heof : eof = true ↔
                 lines ≠ [] ∧ (Z.of_nat (length lines) < num_lines)%Z).
  { unfold eof. rewrite andb_true_iff, Z.ltb_lt, Z.ltb_lt, Hlen.
    destruct lines as [|line lines]; cbn [length].
    - split; [lia|]. by intros [? _].
    - split; [intros [? ?]; split; [done|lia]|intros [_ ?]; lia]. }
  assert (Hnl : nl = true ↔
                shown ≠ [] ∧ endswith [ch_newline] (List.last shown []) = false).
  { unfold nl. rewrite andb_true_iff, Z.ltb_lt, negb_true_iff.
    destruct shown as [|line0 shown0]; cbn [length].
    - split; [lia|]. by intros [? _].
    - split; intros [_ ?]; (split; [done || lia|done]). }
  split; [|split].
  - rewrite <- Heof. destruct eof, nl; simpl; split; try done;
      intros H; repeat (apply elem_of_cons in H as [H|H]; try done);
      try (by apply elem_of_nil in H); by apply elem_of_cons; left.
  - rewrite <- Hnl. destruct eof, nl; simpl; split; try done;
      intros H; repeat (apply elem_of_cons in H as [H|H]; try done);
      try (by apply elem_of_nil in H);
      repeat (apply elem_of_cons; (by left) || right).
  - intros m Hm. destruct eof, nl; simpl in Hm;
      repeat (apply elem_of_cons in Hm as [->|Hm]; [tauto|]);
      by apply elem_of_nil in Hm.
Qed.

Lemma peek_scan_dir cfg rel dirnames filenames :
  Forall (λ n, valid_name n = true) rel →
  as_posix <$> omap (peek_file cfg rel) filenames =
  snd <$> filter (λ e : bool * pystr, e.1 = false)
            (scan_dir cfg (rel, dirnames, filenames)).
Proof.
  intros Hrel. unfold scan_dir. cbn [fst snd]. rewrite filter_app.
  assert (Hdir : filter (λ e : bool * pystr, e.1 = false)
                   (if str_eqb (as_posix rel) [ch_dot] then []
                    else [(true, as_posix rel ++ [ch_slash])]) = []).
  { destruct (str_eqb _ _); [done|]. by rewrite filter_cons_False. }
  rewrite Hdir, app_nil_l.
  induction filenames as [|f filenames IH]; [done|]. cbn [omap list_omap].
  destruct (scan_file cfg rel f) as [p|] eqn:Hscan.
  - pose proof (scan_file_path _ _ _ _ Hrel Hscan) as Hp.
    assert (Hpeek : peek_file cfg rel f = Some (rel ++ [f])).
    { unfold scan_file in Hscan. unfold peek_file.
      destruct (mem f (IGNORE_FILES cfg)); [done|].
      destruct (mem _ (IGNORE_EXTENSIONS cfg)); [done|].
      by destruct (existsb _ _). }
    rewrite Hpeek. cbn [fmap option_fmap option_map list_fmap].
    rewrite filter_cons_True by done. cbn [fmap list_fmap snd].
    rewrite <- IH. f_equal. rewrite Hp, as_posix_snoc. unfold entry_path.
    by rewrite app_nil_r.
  - assert (Hpeek : peek_file cfg rel f = None).
    { unfold scan_file in Hscan. unfold peek_file.
      destruct (mem f (IGNORE_FILES cfg)); [done|].
      destruct (mem _ (IGNORE_EXTENSIONS cfg)); [done|].
      destruct (existsb _ _); [done|]. by destruct (str_eqb _ _). }
    rewrite Hpeek. exact IH.
Qed.

Lemma peek_walk cfg d rel :
  Forall (λ n, valid_name n = true) rel →
  valid_tree d = true →
  as_posix <$>
    flat_map (λ triple : list pystr * list pystr * list pystr,
                omap (peek_file cfg triple.1.1) triple.2)
      (os_walk (λ n, negb (mem n (IGNORE_DIRS cfg))) rel d) =
  snd <$> filter (λ e : bool * pystr, e.1 = false)
            (flat_map (scan_dir cfg)
               (os_walk (λ n, negb (mem n (IGNORE_DIRS cfg))) rel d)).
Proof.
  revert rel. induction d as [|filenames subdirs IH] using fs_dir_nested_ind;
    intros rel Hrel Hd; [done|].
  destruct (valid_tree_dir _ _ Hd) as [_ Hsubs].
  cbn [os_walk flat_map fst snd]. rewrite filter_app, !fmap_app.
  rewrite <- (peek_scan_dir cfg rel (map fst subdirs)) by done. f_equal.
  clear Hd. induction subdirs as [|[name sub] subdirs IHsub]; [done|].
  apply Forall_cons in IH as [IHhead IHtail].
  apply Forall_cons in Hsubs as [[Hname Hsub] Hsubs].
  cbn [flat_map fst snd] in *.
  rewrite !flat_map_app, filter_app, !fmap_app, (IHsub IHtail Hsubs).
  f_equal. destruct (negb (mem name (IGNORE_DIRS cfg))); [|done].
  apply IHhead; [|done]. apply Forall_app. by split; [|constructor].
Qed.

Lemma flat_map_fmap {A B C} (f : B → list C) (g : A → B) (l : list A) :
  flat_map f (g <$> l) = flat_map (λ x, f (g x)) l.
Proof.
  induction l as [|x l IH]; [done|]. cbn [fmap list_fmap flat_map].
  f_equal. exact IH.
Qed.

(** X14. Peek mode looks into exactly the files that verify mode scans, in
    the same order: what [scan_and_peek] prints is, for each file entry of
    the scan in turn, what [peek_into_file] prints for the file of that
    relative path, and then the count of those entries. *)
Theorem peek_visits_the_scanned_files cfg root read (num_lines : Z) :
  valid_tree root = true →
  let scanned :=
    snd <$> filter (λ e : bool * pystr, e.1 = false)
              (scan_entries cfg root) in
  (∃ files,
     as_posix <$> files = scanned ∧
     scan_and_peek cfg root read num_lines =
     flat_map (λ file_path,
                 peek_into_file (as_posix file_path) (read file_path)
                   num_lines) files
     ++ [PeekProcessed (length scanned)]) ∧
  (∀ read_path : pystr → peek_source,
     scan_and_peek cfg root (λ file_path, read_path (as_posix file_path))
       num_lines =
     flat_map (λ relative,
                 peek_into_file relative (read_path relative) num_lines)
       scanned
     ++ [PeekProcessed (length scanned)]).
Proof.
  intros Hroot. cbv zeta.
  assert (Hfiles : as_posix <$> peeked_files cfg root =
    snd <$> filter (λ e : bool * pystr, e.1 = false) (scan_entries cfg root))
    by (by apply peek_walk).
  rewrite <- Hfiles. split.
  - exists (peeked_files cfg root). split; [done|].
    unfold scan_and_peek. by rewrite length_fmap.
  - intros read_path. unfold scan_and_peek.
    by rewrite length_fmap, flat_map_fmap.
Qed.

Lemma peek_into_file_header relative source (num_lines : Z) r (n : Z) :
  PeekHeader r n ∈ peek_into_file relative source num_lines ↔
  r = relative ∧ n = num_lines.
Proof.
  unfold peek_into_file. rewrite elem_of_cons. split.
  - intros [[= -> ->]|H]; [done|]. exfalso.
    apply elem_of_app in H as [H|H].
    + destruct source as [lines then_raises|].
      * rewrite (peek_loop_spec num_lines 0 lines 0 []) in H by done.
        cbv zeta in H. apply elem_of_app in H as [H|H].
        { by apply list_elem_of_fmap in H as (line & [=] & _). }
        destruct (_ && then_raises).
        { apply elem_of_cons in H as [[=]|H]. by apply elem_of_nil in H. }
        apply elem_of_app in H as [H|H].
        { destruct (_ && _); [|by apply elem_of_nil in H].
          apply elem_of_cons in H as [[=]|H]. by apply elem_of_nil in H. }
        destruct (_ && _); [|by apply elem_of_nil in H].
        apply elem_of_cons in H as [[=]|H]. by apply elem_of_nil in H.
      * apply elem_of_cons in H as [[=]|H]. by apply elem_of_nil in H.
    + apply elem_of_cons in H as [[=]|H]. by apply elem_of_nil in H.
  - intros [-> ->]. by left.
Qed.

(** X15. The files that peek mode opens: a header for a file is printed
    exactly when the number of lines asked for is positive and the file is
    one that verify mode scans; the header then carries that number. With a
    number that is not positive no file is opened at all. *)
Theorem peek_mode_opens_the_scanned_files cfg root read (lines : Z)
    relative (n : Z) :
  valid_tree root = true →
  PeekHeader relative n ∈ main_peek cfg root read lines ↔
  (0 < lines)%Z ∧ n = lines ∧ (false, relative) ∈ scan_entries cfg root.
Proof.
  intros Hroot.
  assert (Hscanned : (false, relative) ∈ scan_entries cfg root ↔
                     relative ∈ as_posix <$> peeked_files cfg root).
  { unfold peeked_files. rewrite peek_walk by done.
    fold (scan_entries cfg root). rewrite list_elem_of_fmap. split.
    - intros Hin. exists (false, relative). split; [done|].
      by apply list_elem_of_filter.
    - intros ([is_dir p] & -> & [His Hin]%list_elem_of_filter).
      cbn [fst snd] in *. by subst is_dir. }
  rewrite Hscanned. unfold main_peek. rewrite elem_of_cons.
  destruct (lines <=? 0)%Z eqn:Hle.
  - apply Z.leb_le in Hle. split; [|lia].
    intros [[=]|[[=]|H%elem_of_nil]%elem_of_cons]. done.
  - apply Z.leb_gt in Hle. unfold scan_and_peek.
    rewrite elem_of_cons, elem_of_app, list_elem_of_fmap. split.
    + intros [[=]|[[=]|[H|H]]].
      * apply list_elem_of_In, in_flat_map in H as (file & Hfile & H).
        apply list_elem_of_In, peek_into_file_header in H as [-> ->].
        split; [done|]. split; [done|]. exists file.
        split; [done|]. by apply list_elem_of_In.
      * apply elem_of_cons in H as [[=]|H]. by apply elem_of_nil in H.
    + intros (_ & -> & file & -> & Hfile). right. right. left.
      apply list_elem_of_In, in_flat_map. exists file.
      split; [by apply list_elem_of_In|].
      by apply list_elem_of_In, peek_into_file_header.
Qed.

Lemma differences_empty (actual documented : gset pystr) :
  actual ∖ documented = ∅ ∧ documented ∖ actual = ∅ ↔ actual = documented.
Proof.
  split.
  - intros [H1 H2]. apply set_eq. intros p.
    assert (Hno1 : ¬ (p ∈ actual ∖ documented))
      by (rewrite H1; apply not_elem_of_empty).
    assert (Hno2 : ¬ (p ∈ documented ∖ actual))
      by (rewrite H2; apply not_elem_of_empty).
    rewrite elem_of_difference in Hno1, Hno2.
    destruct (decide (p ∈ actual)), (decide (p ∈ documented)); tauto.
  - intros ->. split; apply set_eq; intros p;
      rewrite elem_of_difference; split; try tauto;
      by intros ?%not_elem_of_empty.
Qed.

Lemma sorted_listing (paths : gset pystr) :
  StronglySorted str_le (sorted paths) ∧ NoDup (sorted paths) ∧
  ∀ p, p ∈ sorted paths ↔ p ∈ paths.
Proof.
  destruct (sorted_strongly paths) as (Hsorted & Helem & _).
  split; [done|]. split; [|done]. unfold sorted.
  rewrite (merge_sort_Permutation str_le (elements paths)).
  apply NoDup_elements.
Qed.

Lemma report_elem (b1 b2 : bool) (s1 s2 : list pystr) :
  let report :=
    if b1 && b2 then [MsgSuccess]
    else (if b1 then [] else [MsgMissingInDocs s1]) ++
         (if b2 then [] else [MsgMissingInProject s2]) in
  (MsgSuccess ∈ report ↔ b1 = true ∧ b2 = true) ∧
  (∀ items, MsgMissingInDocs items ∈ report ↔ b1 = false ∧ items = s1) ∧
  (∀ items, MsgMissingInProject items ∈ report ↔ b2 = false ∧ items = s2).
Proof.
  cbv zeta. destruct b1, b2; cbn [andb app]; (split; [|split]); intros;
    rewrite ?elem_of_cons, ?elem_of_nil; intuition congruence.
Qed.

(** X16. The verdict of verify mode: when the documentation parses, success
    is reported exactly when the documented set equals the scanned set;
    otherwise every path that is scanned and not documented is listed in
    the one list, every path that is documented and not scanned in the
    other, each once and in ascending order. *)
Theorem verify_reports_the_differences cfg root content docs :
  extract_from_content cfg content = Some docs →
  let actual := scan_project_files_for_verify cfg root in
  ∃ report,
    main_verify cfg root (ReadText content) =
    Returns ([MsgBanner cfg; MsgFound (size actual); MsgParsing;
              MsgDocumented (size docs)] ++ report) () ∧
    (MsgSuccess ∈ report ↔ actual = docs) ∧
    (∀ p, p ∈ actual ∧ p ∉ docs ↔
          ∃ items, MsgMissingInDocs items ∈ report ∧ p ∈ items) ∧
    (∀ p, p ∈ docs ∧ p ∉ actual ↔
          ∃ items, MsgMissingInProject items ∈ report ∧ p ∈ items) ∧
    (∀ items,
       MsgMissingInDocs items ∈ report ∨ MsgMissingInProject items ∈ report →
       StronglySorted str_le items ∧ NoDup items).
Proof.
  intros Hdocs. cbv zeta. unfold main_verify. cbn [extract_documented_paths].
  rewrite Hdocs.
  set (actual := scan_project_files_for_verify cfg root).
  eexists. split; [reflexivity|].
  destruct (report_elem (bool_decide (actual ∖ docs = ∅))
              (bool_decide (docs ∖ actual = ∅))
              (sorted (actual ∖ docs)) (sorted (docs ∖ actual)))
    as (Hsuccess & Hfirst & Hsecond).
  destruct (sorted_listing (actual ∖ docs)) as (Hs1 & Hn1 & He1).
  destruct (sorted_listing (docs ∖ actual)) as (Hs2 & Hn2 & He2).
  split; [|split; [|split]].
  - rewrite Hsuccess, !bool_decide_eq_true. apply differences_empty.
  - intros p. split.
    + intros Hp. exists (sorted (actual ∖ docs)). split.
      * apply Hfirst. split; [|done]. apply bool_decide_eq_false.
        intros Hempty. apply elem_of_difference in Hp.
        rewrite Hempty in Hp. by apply not_elem_of_empty in Hp.
      * by apply He1, elem_of_difference.
    + intros (items & [_ ->]%Hfirst & Hp).
      by apply elem_of_difference, He1.
  - intros p. split.
    + intros Hp. exists (sorted (docs ∖ actual)). split.
      * apply Hsecond. split; [|done]. apply bool_decide_eq_false.
        intros Hempty. apply elem_of_difference in Hp.
        rewrite Hempty in Hp. by apply not_elem_of_empty in Hp.
      * by apply He2, elem_of_difference.
    + intros (items & [_ ->]%Hsecond & Hp).
      by apply elem_of_difference, He2.
  - by intros items [[_ ->]%Hfirst|[_ ->]%Hsecond].
Qed.

(** X17. An error met while reading the file is reported only when the
    loop asks for a line after the last one, that is when the file has at
    most [num_lines] lines: the lines are then all printed, the error
    follows, and no end-of-file mark or newline is added. A file with more
    lines is peeked into as if it were read without error. *)
Theorem peek_reports_a_reading_error relative lines then_raises
    (num_lines : Z) :
  peek_into_file relative (PeekLines lines then_raises) num_lines =
  if then_raises && bool_decide (length lines ≤ Z.to_nat num_lines)
  then PeekHeader relative num_lines :: (PeekText <$> lines)
       ++ [PeekError; PeekRule (length relative + 25)]
  else peek_into_file relative (PeekLines lines false) num_lines.
Proof.
  unfold peek_into_file.
  rewrite (peek_loop_spec num_lines 0 lines 0 []) by done. cbv zeta.
  rewrite Z.sub_0_r. destruct then_raises; cbn [andb]; [|done].
  rewrite andb_true_r, andb_false_r.
  case_bool_decide as Hlen; [|done].
  rewrite take_ge by done. by rewrite <- app_assoc.
Qed.

End Unicode.

(** * The properties at concrete inputs *)

Lemma wildcard_line_is_skipped_witness :
  process_line uncased script_rules ([(py "src", 0)], {[ py "src/" ]})
    (py "  *.log") = ([(py "src", 0)], {[ py "src/" ]}) ∧
  ∀ before after,
    parse_lines uncased script_rules (before ++ py "  *.log" :: after) =
    parse_lines uncased script_rules (before ++ after).
Proof.
  apply (wildcard_line_is_skipped uncased script_rules
           ([(py "src", 0)], {[ py "src/" ]}) (py "  *.log")).
  vm_compute. reflexivity.
Defined.

Lemma rooted_token_is_not_joined_witness :
  process_line uncased script_rules ([(py "src", 0)], {[ py "src/" ]})
    (py "  /abs") = ([(py "src", 0)], {[ py "/abs"; py "src/" ]}).
Proof.
  destruct (rooted_token_is_not_joined uncased script_rules [(py "src", 0)]
              {[ py "src/" ]} (py "  /abs")) as (_ & Hline & _).
  - vm_compute. reflexivity.
  - rewrite Hline. vm_compute. reflexivity.
Defined.

Lemma example_diagram_paths_witness :
  extract_from_content uncased no_alnum script_rules
    (py_lines ["# Structure"; ""]%string ++ fence ++
     ch_newline :: example_block ++ fence ++ [ch_newline]) =
  Some {[ py "src/"; py "src/utils.ts"; py "src/components/";
          py "src/components/Button.tsx" ]}.
Proof.
  apply (example_diagram_paths uncased no_alnum
           (py_lines ["# Structure"; ""]%string) [ch_newline]).
  vm_compute. reflexivity.
Defined.

(** C5 fails as stated: [debug.log] matches a pattern of [IGNORE_PATTERNS],
    so the scanner leaves the file out, and yet a diagram that lists it
    documents it. *)
Lemma pattern_rule_not_applied_by_parser :
  ¬ (∀ content docs relative_dir filename,
       extract_from_content uncased no_alnum script_rules content
         = Some docs →
       scan_file uncased script_rules relative_dir filename = None →
       as_posix (relative_dir ++ [filename]) ∉ docs).
Proof.
  intros Hclaim.
  apply (Hclaim (py_lines ["```"; "debug.log"; "```"]%string)
           {[ py "debug.log" ]} [] (py "debug.log")).
  - vm_compute. reflexivity.
  - vm_compute. reflexivity.
  - by apply elem_of_singleton.
Qed.

Lemma parser_applies_name_and_extension_rules_witness :
  (path_name (py "src/utils.ts") ∉ IGNORE_FILES script_rules) ∧
  (∀ part, part ∈ path_parts (py "src/utils.ts") →
           part ∉ IGNORE_DIRS script_rules) ∧
  (endswith [ch_slash] (py "src/utils.ts") = true →
   path_name (py "src/utils.ts") ∉ IGNORE_DIRS script_rules) ∧
  (endswith [ch_slash] (py "src/utils.ts") = false →
   lower uncased (path_suffix (py "src/utils.ts"))
     ∉ IGNORE_EXTENSIONS script_rules) ∧
  (∀ patterns,
     extract_from_content uncased no_alnum
       (with_patterns script_rules patterns)
       (py_lines ["```"; "src/"; "  utils.ts"; "  old.png"; "```"]%string) =
     Some {[ py "src/"; py "src/utils.ts" ]}).
Proof.
  apply (parser_applies_name_and_extension_rules uncased no_alnum script_rules
           (py_lines ["```"; "src/"; "  utils.ts"; "  old.png"; "```"]%string)
           {[ py "src/"; py "src/utils.ts" ]} (py "src/utils.ts")).
  - vm_compute. reflexivity.
  - apply elem_of_union. right. by apply elem_of_singleton.
Defined.


(** What the script does with that line: [/abs] is documented. *)
Example rooted_token_trace :
  process_line uncased script_rules ([(py "src", 0)], {[ py "src/" ]})
    (py "  /abs") = ([(py "src", 0)], {[ py "/abs"; py "src/" ]}).
Proof. vm_compute. reflexivity. Qed.


Example sibling_after_nested_block :
  (parse_lines uncased script_rules
     [py "src/"; py "  components/"; py "    Button.tsx"; py "  utils.ts"]).2
  = {[ py "src/"; py "src/components/"; py "src/components/Button.tsx";
       py "src/utils.ts" ]}.
Proof. vm_compute. reflexivity. Qed.

(** C6 fails as stated: under [src/], the directory line [  structure.md/]
    is not pushed, although [structure.md] is no ignored directory name. *)
Lemma directory_named_as_ignored_file_not_pushed :
  ¬ (∀ path_stack docs line,
       endswith [ch_slash] (node_token line) = true →
       let below := unwind (indentation line) path_stack in
       let clean_path := rstrip_slash (joined_path below (node_token line)) in
       path_name clean_path ∉ IGNORE_DIRS script_rules →
       (process_line uncased script_rules (path_stack, docs) line).1 =
       (clean_path, indentation line) :: below).
Proof.
  intros Hclaim.
  specialize (Hclaim [(py "src", 0)] ∅ (py "  structure.md/") eq_refl).
  cbv zeta in Hclaim.
  assert (Hrun :
    (process_line uncased script_rules ([(py "src", 0)], ∅)
       (py "  structure.md/")).1 = [(py "src", 0)])
    by (vm_compute; reflexivity).
  rewrite Hrun in Hclaim.
  assert (Hlen : ∀ (e : pystr * nat) l, [(py "src", 0)] ≠ e :: (py "src", 0) :: l)
    by (intros e l; discriminate).
  eapply Hlen. apply Hclaim.
  apply mem_false. vm_compute. reflexivity.
Qed.

(** A directory whose path holds an ignored directory name elsewhere than
    at its end is left out of the documented set and pushed all the same. *)
Example excluded_directory_is_pushed :
  process_line uncased script_rules ([], ∅) (py ".git/hooks/") =
  ([(py ".git/hooks", 0)], ∅).
Proof. vm_compute. reflexivity. Qed.

Lemma directory_line_push_witness :
  (process_line uncased script_rules ([(py "src", 0)], {[ py "src/" ]})
     (py "  components/")).1 = [(py "src/components", 2); (py "src", 0)].
Proof.
  apply (directory_line_push uncased script_rules [(py "src", 0)]
           {[ py "src/" ]} (py "  components/")).
  - vm_compute. reflexivity.
  - vm_compute. reflexivity.
  - apply mem_false. vm_compute. reflexivity.
  - apply mem_false. vm_compute. reflexivity.
  - apply mem_false. vm_compute. reflexivity.
  - apply mem_false. vm_compute. reflexivity.
Defined.

(** C7 fails as stated: a file that exists and cannot be read gives neither
    the failure value nor a set. *)
Lemma unreadable_file_returns_nothing :
  ¬ (∀ md_file,
       md_file ≠ ReadFileNotFoundError →
       (∀ content, md_file = ReadText content → has_code_block content) →
       ∃ out docs,
         extract_documented_paths uncased no_alnum script_rules md_file
         = Returns out (Some docs)).
Proof.
  intros Hclaim.
  destruct (Hclaim (ReadRaises PermissionError)) as (out & docs & Hret);
    [done|done|discriminate Hret].
Qed.

Lemma extract_failure_cases_witness :
  main_verify uncased no_alnum script_rules (Dir [] []) ReadFileNotFoundError =
  Returns [MsgBanner script_rules; MsgFound 0; MsgParsing; MsgNotFound;
           MsgCouldNotVerify] ().
Proof.
  destruct (extract_failure_cases uncased no_alnum script_rules (Dir [] [])
              ReadFileNotFoundError) as (_ & Hdriver & _).
  apply (Hdriver [MsgNotFound]). reflexivity.
Defined.

(** C1 fails as stated: a file called [.git], as a submodule checkout has
    one, is scanned, and its one component is an ignored directory name. *)
Lemma file_named_as_ignored_directory_is_scanned :
  ¬ (∀ root p part,
       valid_tree root = true →
       p ∈ scan_project_files_for_verify uncased script_rules root →
       part ∈ path_parts p →
       part ∉ IGNORE_DIRS script_rules).
Proof.
  intros Hclaim.
  apply (Hclaim (Dir [py ".git"] []) (py ".git") (py ".git")).
  - reflexivity.
  - apply (bool_decide_eq_true_1 _). vm_compute. reflexivity.
  - apply (bool_decide_eq_true_1 _). vm_compute. reflexivity.
  - apply (bool_decide_eq_true_1 _). vm_compute. reflexivity.
Qed.

Example sample_tree_scan :
  scan_entries uncased script_rules sample_tree =
  [(false, py ".git"); (false, py "README.md"); (true, py "src/");
   (false, py "src/utils.ts"); (true, py "src/components/");
   (false, py "src/components/Button.tsx")].
Proof. vm_compute. reflexivity. Qed.

Lemma ignored_directories_are_left_out_witness :
  (py "src" ∉ IGNORE_DIRS script_rules) ∧
  (py "components" ∉ IGNORE_DIRS script_rules).
Proof.
  destruct (ignored_directories_are_left_out uncased no_alnum script_rules)
    as [Hparser Hscanner]. split.
  - apply (Hparser (py_lines ["```"; "src/"; "  .git/"; "```"]%string)
             {[ py "src/" ]} (py "src/") (py "src")).
    + vm_compute. reflexivity.
    + by apply elem_of_singleton.
    + apply (bool_decide_eq_true_1 _). vm_compute. reflexivity.
  - apply (Hscanner sample_tree true (py "src/components/")
             (py "components")).
    + reflexivity.
    + apply (bool_decide_eq_true_1 _). vm_compute. reflexivity.
    + apply (bool_decide_eq_true_1 _). vm_compute. reflexivity.
Defined.

Lemma scanned_paths_are_normalized_witness :
  py "src/components/" ∈ scan_project_files_for_verify uncased script_rules
                           sample_tree ∧
  endswith [ch_slash] (py "src/components/") = true ∧
  endswith [ch_slash; ch_slash] (py "src/components/") = false.
Proof.
  destruct (scanned_paths_are_normalized uncased script_rules sample_tree)
    as (Hentry & _).
  - reflexivity.
  - destruct (Hentry true (py "src/components/"))
      as (Hin & _ & _ & _ & _ & Hslash & Hslash2).
    + apply (bool_decide_eq_true_1 _). vm_compute. reflexivity.
    + by repeat split.
Defined.

(** C4 fails as stated: the scan of a directory that holds the file [.git]
    is the set of the path [.git]; the parser drops the line of that name,
    and the diagram parses to the empty set. *)
Lemma round_trip_loses_file_named_as_ignored_directory :
  ¬ (∀ unit root,
       1 ≤ unit → valid_tree root = true →
       extract_from_content uncased no_alnum script_rules
         (diagram unit
            (sorted (scan_project_files_for_verify uncased script_rules
                       root))) =
       Some (scan_project_files_for_verify uncased script_rules root)).
Proof.
  intros Hclaim.
  specialize (Hclaim 2 (Dir [py ".git"] []) (le_S _ _ (le_n 1)) eq_refl).
  assert (Hrun :
    bool_decide
      (extract_from_content uncased no_alnum script_rules
         (diagram 2
            (sorted (scan_project_files_for_verify uncased script_rules
                       (Dir [py ".git"] [])))) =
       Some (scan_project_files_for_verify uncased script_rules
               (Dir [py ".git"] []))) = false)
    by (vm_compute; reflexivity).
  apply bool_decide_eq_false in Hrun. exact (Hrun Hclaim).
Qed.

(** What the two sides are there. *)
Example round_trip_of_git_file :
  scan_project_files_for_verify uncased script_rules (Dir [py ".git"] [])
  = {[ py ".git" ]} ∧
  extract_from_content uncased no_alnum script_rules
    (diagram 2 (sorted {[ py ".git" ]})) = Some ∅.
Proof. split; vm_compute; reflexivity. Qed.

(** Without the root marker the first line of the block loses its
    indentation to the [strip()] of line 55, and a directory on that line
    becomes the parent of its siblings. *)
Example first_line_loses_its_indentation :
  extract_from_content uncased no_alnum script_rules
    (py_lines ["```"; "  a/"; "  b/"; "```"]%string) =
  Some {[ py "a/"; py "a/b/" ]}.
Proof. vm_compute. reflexivity. Qed.

Lemma scan_diagram_round_trip_witness :
  extract_from_content uncased no_alnum script_rules
    (diagram 2 (sorted (scan_project_files_for_verify uncased script_rules
                          plain_tree))) =
  Some (scan_project_files_for_verify uncased script_rules plain_tree) ∧
  extract_from_content uncased no_alnum script_rules
    (diagram 2 (snd <$> scan_entries uncased script_rules plain_tree)) =
  Some (scan_project_files_for_verify uncased script_rules plain_tree).
Proof.
  apply (scan_diagram_round_trip uncased no_alnum script_rules 2 plain_tree).
  - exact (le_S _ _ (le_n 1)).
  - reflexivity.
  - intros p Hin.
    assert (Hall :
      forallb (λ p, plain_name script_rules (path_name p))
        (elements (scan_project_files_for_verify uncased script_rules
                     plain_tree)) = true)
      by (vm_compute; reflexivity).
    exact (proj1 (forallb_forall _ _) Hall p
             (proj1 (list_elem_of_In _ _)
                (proj2 (elem_of_elements _ _) Hin))).
Defined.

(** ** The scanner *)

Lemma ignored_directory_contents_are_not_read_witness :
  scan_entries uncased script_rules sample_tree =
  scan_entries uncased script_rules sample_tree_changed ∧
  scan_project_files_for_verify uncased script_rules sample_tree =
  scan_project_files_for_verify uncased script_rules sample_tree_changed.
Proof.
  apply (ignored_directory_contents_are_not_read uncased script_rules
           sample_tree sample_tree_changed).
  vm_compute. reflexivity.
Defined.

Lemma scanned_files_pass_the_rules_witness :
  (path_name (py "src/utils.ts") ∉ IGNORE_FILES script_rules) ∧
  (lower uncased (path_suffix (py "src/utils.ts"))
     ∉ IGNORE_EXTENSIONS script_rules) ∧
  existsb (λ pattern, pattern (py "src/utils.ts"))
    (IGNORE_PATTERNS script_rules) = false.
Proof.
  apply (scanned_files_pass_the_rules uncased script_rules sample_tree
           (py "src/utils.ts")).
  - reflexivity.
  - apply (bool_decide_eq_true_1 _). vm_compute. reflexivity.
Defined.

Lemma scanned_paths_have_their_parents_witness :
  (true,
   join_slash (removelast (path_parts (py "src/components/Button.tsx")))
   ++ [ch_slash]) ∈ scan_entries uncased script_rules sample_tree.
Proof.
  apply (scanned_paths_have_their_parents uncased script_rules sample_tree
           false (py "src/components/Button.tsx")).
  - reflexivity.
  - apply (bool_decide_eq_true_1 _). vm_compute. reflexivity.
  - intros Hnil. vm_compute in Hnil. discriminate Hnil.
Defined.

Lemma every_kept_entry_is_scanned_witness :
  ([py "src"; py "components"] ≠ [] →
   (true, join_slash [py "src"; py "components"] ++ [ch_slash])
     ∈ scan_entries uncased script_rules sample_tree) ∧
  (∀ filename,
     filename ∈ [py "Button.tsx"; py "x.pyc"] →
     filename ∉ IGNORE_FILES script_rules →
     lower uncased (name_suffix filename) ∉ IGNORE_EXTENSIONS script_rules →
     existsb
       (λ pattern,
          pattern (join_slash ([py "src"; py "components"] ++ [filename])))
       (IGNORE_PATTERNS script_rules) = false →
     (false, join_slash ([py "src"; py "components"] ++ [filename]))
       ∈ scan_entries uncased script_rules sample_tree).
Proof.
  apply (every_kept_entry_is_scanned uncased script_rules sample_tree
           [py "src"; py "components"] [py "Button.tsx"; py "x.pyc"] []).
  - reflexivity.
  - apply (at_sub sample_tree [py "src"] [py "utils.ts"]
             [(py "components", Dir [py "Button.tsx"; py "x.pyc"] []);
              (py "node_modules", Dir [py "x.js"] [])]
             (py "components") (Dir [py "Button.tsx"; py "x.pyc"] [])).
    + apply (at_sub sample_tree []
               [py ".git"; py "README.md"; py "logo.PNG"; py "debug.log"]
               [(py "src",
                 Dir [py "utils.ts"]
                   [(py "components", Dir [py "Button.tsx"; py "x.pyc"] []);
                    (py "node_modules", Dir [py "x.js"] [])]);
                (py ".git", Dir [py "HEAD"] []);
                (py "link", Closed)]
               (py "src")
               (Dir [py "utils.ts"]
                  [(py "components", Dir [py "Button.tsx"; py "x.pyc"] []);
                   (py "node_modules", Dir [py "x.js"] [])])).
      * apply at_root.
      * apply list_elem_of_here.
    + apply list_elem_of_here.
  - apply Forall_cons_2; [apply mem_false; vm_compute; reflexivity|].
    apply Forall_cons_2; [apply mem_false; vm_compute; reflexivity|].
    apply Forall_nil_2.
Defined.

Lemma scanned_directories_depend_on_ignored_dirs_only_witness :
  filter (λ e : bool * pystr, e.1 = true)
    (scan_entries uncased script_rules sample_tree) =
  filter (λ e : bool * pystr, e.1 = true)
    (scan_entries uncased (with_patterns script_rules []) sample_tree).
Proof.
  apply (scanned_directories_depend_on_ignored_dirs_only uncased script_rules
           (with_patterns script_rules []) sample_tree).
  reflexivity.
Defined.

(** ** The parser *)

Lemma inline_comment_is_dropped_witness :
  process_line uncased script_rules ([(py "src", 0)], {[ py "src/" ]})
    (py "  utils.ts " ++ ch_hash :: py " helpers") =
  process_line uncased script_rules ([(py "src", 0)], {[ py "src/" ]})
    (py "  utils.ts ").
Proof.
  apply (inline_comment_is_dropped uncased script_rules
           ([(py "src", 0)], {[ py "src/" ]}) (py "  utils.ts ")
           (py " helpers")).
  - vm_compute. reflexivity.
  - vm_compute. reflexivity.
  - vm_compute. reflexivity.
  - intros Hdot. vm_compute in Hdot. discriminate Hdot.
Defined.

Lemma same_token_same_indentation_witness :
  process_line uncased script_rules ([(py "src", 0)], {[ py "src/" ]})
    (py "├── utils.ts") =
  process_line uncased script_rules ([(py "src", 0)], {[ py "src/" ]})
    (py "    utils.ts").
Proof.
  apply (same_token_same_indentation uncased script_rules
           ([(py "src", 0)], {[ py "src/" ]}) (py "├── utils.ts")
           (py "    utils.ts")).
  - vm_compute. reflexivity.
  - vm_compute. reflexivity.
  - vm_compute. reflexivity.
  - vm_compute. reflexivity.
  - intros Hdot. vm_compute in Hdot. discriminate Hdot.
Defined.

Lemma decoration_only_line_is_skipped_witness :
  process_line uncased script_rules ([(py "src", 0)], {[ py "src/" ]})
    (py "│   ") = ([(py "src", 0)], {[ py "src/" ]}) ∧
  process_line uncased script_rules ([(py "src", 0)], {[ py "src/" ]})
    (py "│   " ++ ch_hash :: py " nothing here") =
  ([(py "src", 0)], {[ py "src/" ]}).
Proof.
  apply (decoration_only_line_is_skipped uncased script_rules
           ([(py "src", 0)], {[ py "src/" ]}) (py "│   ")
           (py " nothing here")).
  vm_compute. reflexivity.
Defined.

Lemma code_block_is_found_witness :
  search_code_block no_alnum
    (py_lines ["# Structure"; ""]%string ++ fence ++ py "text" ++
     ch_newline :: example_block ++ fence ++ [ch_newline]) =
  Some example_block ∧
  extract_from_content uncased no_alnum script_rules
    (py_lines ["# Structure"; ""]%string ++ fence ++ py "text" ++
     ch_newline :: example_block ++ fence ++ [ch_newline]) =
  extract_from_content uncased no_alnum script_rules
    (fence ++ ch_newline :: example_block ++ fence).
Proof.
  apply (code_block_is_found uncased no_alnum script_rules
           (py_lines ["# Structure"; ""]%string) (py "text") example_block
           [ch_newline]).
  - vm_compute. reflexivity.
  - vm_compute. reflexivity.
  - vm_compute. reflexivity.
Defined.

Lemma documented_paths_end_with_one_slash_at_most_witness :
  endswith [ch_slash; ch_slash] (py "src/") = false.
Proof.
  apply (documented_paths_end_with_one_slash_at_most uncased no_alnum
           script_rules (py_lines ["```"; "src//"; "```"]%string)
           {[ py "src/" ]} (py "src/")).
  - vm_compute. reflexivity.
  - by apply elem_of_singleton.
Defined.

(** ** Peek mode and the report *)

Lemma peek_visits_the_scanned_files_witness :
  scan_and_peek uncased script_rules sample_tree (λ _, PeekOpenRaises) 10 =
  flat_map (λ relative, peek_into_file relative PeekOpenRaises 10)
    (snd <$> filter (λ e : bool * pystr, e.1 = false)
               (scan_entries uncased script_rules sample_tree))
  ++ [PeekProcessed
        (length (snd <$> filter (λ e : bool * pystr, e.1 = false)
                           (scan_entries uncased script_rules sample_tree)))].
Proof.
  destruct (peek_visits_the_scanned_files uncased script_rules sample_tree
              (λ _, PeekOpenRaises) 10) as [_ Hpath].
  - reflexivity.
  - exact (Hpath (λ _, PeekOpenRaises)).
Defined.

Lemma peek_mode_opens_the_scanned_files_witness :
  PeekHeader (py "src/utils.ts") 10
    ∈ main_peek uncased script_rules sample_tree (λ _, PeekLines [] false) 10
  ↔ (0 < 10)%Z ∧ 10%Z = 10%Z ∧
    (false, py "src/utils.ts") ∈ scan_entries uncased script_rules sample_tree.
Proof.
  apply (peek_mode_opens_the_scanned_files uncased script_rules sample_tree
           (λ _, PeekLines [] false) 10 (py "src/utils.ts") 10).
  reflexivity.
Defined.

Lemma verify_reports_the_differences_witness :
  let actual := scan_project_files_for_verify uncased script_rules
                  sample_tree in
  let docs : gset pystr := {[ py "src/"; py "src/utils.ts" ]} in
  ∃ report,
    main_verify uncased no_alnum script_rules sample_tree
      (ReadText
         (py_lines ["```"; "src/"; "  utils.ts"; "  old.png"; "```"]%string))
    = Returns ([MsgBanner script_rules; MsgFound (size actual); MsgParsing;
                MsgDocumented (size docs)] ++ report) () ∧
    (MsgSuccess ∈ report ↔ actual = docs) ∧
    (∀ p, p ∈ actual ∧ p ∉ docs ↔
          ∃ items, MsgMissingInDocs items ∈ report ∧ p ∈ items) ∧
    (∀ p, p ∈ docs ∧ p ∉ actual ↔
          ∃ items, MsgMissingInProject items ∈ report ∧ p ∈ items) ∧
    (∀ items,
       MsgMissingInDocs items ∈ report ∨ MsgMissingInProject items ∈ report →
       StronglySorted str_le items ∧ NoDup items).
Proof.
  apply (verify_reports_the_differences uncased no_alnum script_rules
           sample_tree
           (py_lines ["```"; "src/"; "  utils.ts"; "  old.png"; "```"]%string)
           {[ py "src/"; py "src/utils.ts" ]}).
  vm_compute. reflexivity.
Defined.
